(** * A shallow embedding of the page/table record store and its scan operator

    The development follows [user_input.cpp] and [tempCodeRunnerFile.cpp].
    Both files share [Page], [Table] and [Database]; they differ in
    [DiskManager], [TableScanOperator::Next] and [ExecutionEngine].

    Modelling choices.
    - [int] is a [Z]; an increment that leaves the 32-bit signed range is
      undefined behaviour in C++ and is reported as [Fault SignedOverflow].
    - [Page*] is an address into a page store ([heap]); [new Page] appends a
      cell, [delete] empties it.  Going through a dangling or wild pointer is
      [Fault UseAfterFree].
    - [char** records] is the list of slots that [new char*[n]] allocated; a
      slot is [None] for [nullptr] and [Some s] for a NUL-terminated buffer
      holding [s].  Indexing outside the allocation is [Fault OutOfBounds].
    - [std::cout] and [std::cerr] are an event log.
    - Memory is unbounded: [std::bad_alloc] is not modelled.
    - Loops and the recursion of [Next] take fuel; [NoFuel] is shown not to
      occur for the fuel the model supplies.

    Theorems whose comment reads "as the code has it" record what the code
    does where it departs from its specification. *)

From stdpp Require Import base option list strings gmap.
From Stdlib Require Import ZArith Lia.

Local Open Scope Z_scope.

(** ** Outcomes of running C++ code *)

Inductive fault : Type :=
  | OutOfBounds        (* index outside a [new T[n]] allocation *)
  | UseAfterFree       (* access or [delete] through a pointer to a freed page *)
  | SignedOverflow     (* [++] on an [int] holding [INT_MAX] *)
  | BadArrayNewLength. (* [new T[n]] with negative [n] throws *)

Inductive result (A : Type) : Type :=
  | Ok (a : A)
  | Fault (f : fault)
  | NoFuel. (* the model's loop bound was too small; never a program outcome *)

Arguments Ok {A} a.
Arguments Fault {A} f.
Arguments NoFuel {A}.

#[export] Instance result_ret : MRet result := @Ok.
#[export] Instance result_bind : MBind result := λ A B k m,
  match m with
  | Ok a => k a
  | Fault f => Fault f
  | NoFuel => NoFuel
  end.

Definition INT_MAX : Z := 2147483647.

(** [++x] / [x++] on an [int]: the new value. *)
Definition int_incr (x : Z) : result Z :=
  if x <? INT_MAX then Ok (x + 1) else Fault SignedOverflow.

(** Conversion of an [int] to [std::size_t] (64-bit), as the comparison
    [pageNum < table->pages.size()] and [operator[]] perform it. *)
Definition to_size_t (x : Z) : Z := x mod 2 ^ 64.

(** What [std::strcpy(dst, record.c_str())] leaves in [dst]: the bytes of
    [record] before its first NUL. *)
Fixpoint strcpy (record : string) : string :=
  match record with
  | EmptyString => EmptyString
  | String c rest => if Ascii.eqb c Ascii.zero then EmptyString else String c (strcpy rest)
  end.

(** ** Page *)

Definition loc : Type := nat.

Record Page : Type := mkPage {
  header : option loc;              (* void* header, always nullptr *)
  records : list (option string);   (* char** records: the allocated slots *)
  numRecords : Z                    (* int numRecords *)
}.

(** [Page::Page(int numRecords)]: the member [numRecords] is initialised
    from the constructor argument, and every allocated slot is [nullptr]. *)
Definition Page_ctor (n : Z) : result Page :=
  if n <? 0 then Fault BadArrayNewLength
  else Ok (mkPage None (replicate (Z.to_nat n) None) n).

Abbreviation heap := (list (option Page)).

Definition deref (h : heap) (a : loc) : result Page :=
  match h !! a with
  | Some (Some pg) => Ok pg
  | _ => Fault UseAfterFree
  end.

(** [delete p] for a non-null [Page* p]: [Page::~Page] walks
    [records[0 .. numRecords)] and then the cell is released. *)
Definition Page_delete (h : heap) (a : loc) : result heap :=
  pg ← deref h a;
  if numRecords pg <=? Z.of_nat (length (records pg))
  then Ok (<[a := None]> h)
  else Fault OutOfBounds.

(** ** Table *)

Record Table : Type := mkTable {
  name : string;
  pages : list loc;           (* std::vector<Page*> pages *)
  numRecordsPerPage : Z
}.

Definition Table_ctor (tableName : string) (recordsPerPage : Z) : Table :=
  mkTable tableName [] recordsPerPage.

(** [Table::addPage]: [pages.push_back(new Page(numRecordsPerPage))]. *)
Definition addPage (t : Table) (h : heap) : result (Table * heap) :=
  pg ← Page_ctor (numRecordsPerPage t);
  mret (mkTable (name t) (pages t ++ [length h]) (numRecordsPerPage t),
        h ++ [Some pg]).

(** [records[i] = v] on the slots of a page. *)
Definition store_slot (slots : list (option string)) (i : Z) (v : option string)
  : result (list (option string)) :=
  if (0 <=? i) && (i <? Z.of_nat (length slots))
  then Ok (<[Z.to_nat i := v]> slots)
  else Fault OutOfBounds.

(** [records[i]] read from the slots of a page. *)
Definition load_slot (slots : list (option string)) (i : Z) : result (option string) :=
  if (0 <=? i) && (i <? Z.of_nat (length slots))
  then match slots !! Z.to_nat i with
       | Some v => Ok v
       | None => Fault OutOfBounds
       end
  else Fault OutOfBounds.

(** [pages.back()]. *)
Definition back (t : Table) : result loc :=
  match last (pages t) with
  | Some a => Ok a
  | None => Fault OutOfBounds
  end.

(** [Table::addRecord]. *)
Definition addRecord (record : string) (t : Table) (h : heap) : result (Table * heap) :=
  '(t1, h1) ← match last (pages t) with
              | None => addPage t h
              | Some a =>
                  pg ← deref h a;
                  if numRecords pg =? numRecordsPerPage t then addPage t h else Ok (t, h)
              end;
  lastPage ← back t1;
  pg ← deref h1 lastPage;
  let recordIndex := numRecords pg in
  n' ← int_incr (numRecords pg);
  slots ← store_slot (records pg) recordIndex (Some (strcpy record));
  mret (t1, <[lastPage := Some (mkPage (header pg) slots n')]> h1).

(** [addRecord] for each payload of a sequence, in order (a caller's loop,
    not a function of the source). *)
Fixpoint addRecords (rs : list string) (t : Table) (h : heap) : result (Table * heap) :=
  match rs with
  | [] => Ok (t, h)
  | r :: rs' => '(t', h') ← addRecord r t h; addRecords rs' t' h'
  end.

(** ** Database *)

Inductive event : Type :=
  | cout (line : string)
  | cerr (line : string).

Record Database : Type := mkDatabase {
  tables : gmap string Table;   (* std::unordered_map<std::string, Table*> *)
  store : heap;                 (* the pages the tables point to *)
  log : list event              (* what was written to the two streams *)
}.

Definition empty_db : Database := mkDatabase ∅ [] [].

Definition createTable (nm : string) (recordsPerPage : Z) (db : Database) : Database :=
  match tables db !! nm with
  | Some _ =>
      mkDatabase (tables db) (store db) (log db ++ [cerr ("Table already exists: " +:+ nm)])
  | None =>
      mkDatabase (<[nm := Table_ctor nm recordsPerPage]> (tables db)) (store db)
                 (log db ++ [cout ("Table created: " +:+ nm)])
  end.

Definition insertInto (tableName record : string) (db : Database) : result Database :=
  match tables db !! tableName with
  | None =>
      Ok (mkDatabase (tables db) (store db)
                     (log db ++ [cerr ("Table not found: " +:+ tableName)]))
  | Some t =>
      '(t', h') ← addRecord record t (store db);
      mret (mkDatabase (<[tableName := t']> (tables db)) h'
                       (log db ++ [cout ("Inserted record into " +:+ tableName +:+ ": " +:+ record)]))
  end.

Definition getTable (nm : string) (db : Database) : option Table := tables db !! nm.

(** ** Scan operator: the state both variants share *)

Record TableScanOperator : Type := mkScan {
  currentRecordIndex : Z;
  currentPageNum : Z;
  currentPage : option loc   (* Page* currentPage; None is nullptr *)
}.

(** [DiskManager::getPage]: [pageNum < table->pages.size()] compares after
    converting [pageNum] to [size_t]. *)
Definition getPage (t : Table) (pageNum : Z) : option loc :=
  if to_size_t pageNum <? Z.of_nat (length (pages t))
  then pages t !! Z.to_nat (to_size_t pageNum)
  else None.

(** Both constructors: cursor at (0, 0), [currentPage = getPage(0)]. *)
Definition TableScanOperator_ctor (t : Table) : TableScanOperator :=
  mkScan 0 0 (getPage t 0).

(** Both destructors: [if (currentPage != nullptr) delete currentPage;]. *)
Definition TableScanOperator_dtor (h : heap) (op : TableScanOperator) : result heap :=
  match currentPage op with
  | Some a => Page_delete h a
  | None => Ok h
  end.

(** [return currentPage->records[currentRecordIndex++];] *)
Definition yield (h : heap) (op : TableScanOperator) (a : loc) (pg : Page)
  : result (option string * (heap * TableScanOperator)) :=
  r ← load_slot (records pg) (currentRecordIndex op);
  i' ← int_incr (currentRecordIndex op);
  mret (r, (h, mkScan i' (currentPageNum op) (Some a))).

(** *** [user_input.cpp] *)
Module UserInput.

(** [TableScanOperator::Next]: the [while] loop, one unit of fuel per
    iteration of its body. *)
Fixpoint Next_loop (fuel : nat) (t : Table) (h : heap) (op : TableScanOperator)
  : result (option string * (heap * TableScanOperator)) :=
  let body (release : result heap) :=
    match fuel with
    | O => NoFuel
    | S fuel' =>
        pn ← int_incr (currentPageNum op);
        h' ← release;
        match getPage t pn with
        | None => Ok (None, (h', mkScan (currentRecordIndex op) pn None))
        | Some a' => Next_loop fuel' t h' (mkScan 0 pn (Some a'))
        end
    end in
  match currentPage op with
  | None => body (Ok h)
  | Some a =>
      pg ← deref h a;
      if numRecords pg <=? currentRecordIndex op
      then body (Page_delete h a)
      else yield h op a pg
  end.

Definition Next (t : Table) (s : heap * TableScanOperator)
  : result (option string * (heap * TableScanOperator)) :=
  Next_loop (S (length (pages t))) t s.1 s.2.

End UserInput.

(** *** [tempCodeRunnerFile.cpp] *)
Module TempCodeRunnerFile.

(** [TableScanOperator::Next]: one unit of fuel per recursive call. *)
Fixpoint Next_rec (fuel : nat) (t : Table) (h : heap) (op : TableScanOperator)
  : result (option string * (heap * TableScanOperator)) :=
  match currentPage op with
  | None => Ok (None, (h, op))
  | Some a =>
      pg ← deref h a;
      if currentRecordIndex op <? numRecords pg
      then yield h op a pg
      else
        pn ← int_incr (currentPageNum op);
        h' ← Page_delete h a;
        match getPage t pn with
        | None => Ok (None, (h', mkScan (currentRecordIndex op) pn None))
        | Some a' =>
            match fuel with
            | O => NoFuel
            | S fuel' => Next_rec fuel' t h' (mkScan 0 pn (Some a'))
            end
        end
  end.

Definition Next (t : Table) (s : heap * TableScanOperator)
  : result (option string * (heap * TableScanOperator)) :=
  Next_rec (length (pages t)) t s.1 s.2.

End TempCodeRunnerFile.

(** ** Execution driver *)

Section Driver.
Context {St : Type}.
(** [Operator::Next], a virtual call in the source. *)
Variable next : St → result (option string * St).

(** [while ((record = op.Next()) != nullptr) sink(record);] returns the
    records handed to the sink, in order, and the operator's last state. *)
Fixpoint drive (fuel : nat) (s : St) : result (list string * St) :=
  match fuel with
  | O => NoFuel
  | S fuel' =>
      '(r, s') ← next s;
      match r with
      | None => Ok ([], s')
      | Some record =>
          '(out, s'') ← drive fuel' s';
          mret (record :: out, s'')
      end
  end.

(** The first [k] values that [Next] returns when it is called [k] times in
    a row (a caller's loop, not a function of the source). *)
Fixpoint pulls (k : nat) (s : St) : result (list (option string) * St) :=
  match k with
  | O => Ok ([], s)
  | S k' =>
      '(r, s') ← next s;
      '(rs, s'') ← pulls k' s';
      mret (r :: rs, s'')
  end.
End Driver.

Definition sink (record : string) : event := cout ("Record: " +:+ record).

Module UserInputEngine.

(** [ExecutionEngine::executeSelect]; the scan operator is a local, so its
    destructor runs when the function returns. *)
Definition executeSelect (fuel : nat) (tableName : string) (db : Database) : result Database :=
  match getTable tableName db with
  | None =>
      Ok (mkDatabase (tables db) (store db)
                     (log db ++ [cerr ("Table not found: " +:+ tableName)]))
  | Some t =>
      '(out, (h, op)) ← drive (UserInput.Next t) fuel (store db, TableScanOperator_ctor t);
      h' ← TableScanOperator_dtor h op;
      Ok (mkDatabase (tables db) h' (log db ++ map sink out))
  end.

End UserInputEngine.

Module TempCodeRunnerFileEngine.

(** [ExecutionEngine::execute]: drives [rootOperator] through its virtual
    [Next] and prints every record. *)
Definition execute {St : Type} (rootNext : St → result (option string * St))
    (fuel : nat) (s : St) : result (list event * St) :=
  '(out, s') ← drive rootNext fuel s;
  Ok (map sink out, s').

(** The block of [main] that scans a table: the scan operator is
    constructed, the engine runs it, and the operator is destroyed when the
    block ends. *)
Definition scanTable (fuel : nat) (t : Table) (h : heap) : result (list event * heap) :=
  '(evs, (h1, op)) ← execute (TempCodeRunnerFile.Next t) fuel (h, TableScanOperator_ctor t);
  h2 ← TableScanOperator_dtor h1 op;
  Ok (evs, h2).

End TempCodeRunnerFileEngine.

(** ** Notions the statements below are phrased with *)

(** What every cursor built by the constructor and advanced by [Next]
    satisfies: the page counter is a non-negative [int] and the record
    index does not exceed [INT_MAX]. *)
Definition scan_ok (op : TableScanOperator) : Prop :=
  0 ≤ currentPageNum op ≤ INT_MAX ∧ currentRecordIndex op ≤ INT_MAX.

(** Pages still ahead of the cursor, each weighed as a full [int] range,
    plus what is left of the range on the current page. *)
Definition potential (t : Table) (op : TableScanOperator) : nat :=
  let n := Z.of_nat (length (pages t)) in
  Z.to_nat ((n - Z.min (currentPageNum op) n) * (INT_MAX + 1)
            + (INT_MAX + 1 - currentRecordIndex op)).

(** What a call may return, as far as the cursor is concerned. *)
Definition step_ok (t : Table) (op : TableScanOperator)
    (res : result (option string * (heap * TableScanOperator))) : Prop :=
  match res with
  | NoFuel => False
  | Fault _ => True
  | Ok (r, (_, op')) =>
      scan_ok op' ∧ (is_Some r → (potential t op' < potential t op)%nat)
  end.

(** [out] are the values [Next] returns before it first returns null, and
    [s'] is the state that call leaves. *)
Definition first_null {St : Type} (next : St → result (option string * St))
    (s : St) (out : list string) (s' : St) : Prop :=
  pulls next (S (length out)) s = Ok (map Some out ++ [None], s').

(** A page whose second slot is null although its count is 3, followed by
    a second page. *)
Definition holed_store : heap :=
  [Some (mkPage None [Some "A"; None; Some "B"] 3); Some (mkPage None [Some "C"] 1)].
Definition holed_table : Table := mkTable "T" [0%nat; 1%nat] 3.

(** [insertInto] for each payload of a sequence, in order (a caller's
    loop, as in [main]). *)
Fixpoint insertAll (nm : string) (rs : list string) (db : Database) : result Database :=
  match rs with
  | [] => Ok db
  | r :: rs' => db' ← insertInto nm r db; insertAll nm rs' db'
  end.

(** The page [Page::Page(cap)] builds: [cap] null slots and a count that
    is already [cap]. *)
Definition fresh_page (cap : Z) : Page :=
  mkPage None (replicate (Z.to_nat cap) None) cap.

(** How an insertion that has to start a new page ends. *)
Definition new_page_fault (cap : Z) : fault :=
  if cap <? 0 then BadArrayNewLength
  else if cap <? INT_MAX then OutOfBounds
  else SignedOverflow.

(** A table laid out as the spec's second scenario describes it: capacity
    2, page 0 holding A and B, page 1 holding C. *)
Definition abc_store : heap :=
  [Some (mkPage None [Some "A"; Some "B"] 2); Some (mkPage None [Some "C"; None] 1)].
Definition abc_table : Table := mkTable "X" [0%nat; 1%nat] 2.
Definition abc_db : Database := mkDatabase {["X" := abc_table]} abc_store [].

(** ** The rest of the source: destructors and the engine's wrappers *)

(** The loop of [Table::~Table]: [for (Page* page : pages) delete page;]. *)
Fixpoint delete_pages (ps : list loc) (h : heap) : result heap :=
  match ps with
  | [] => Ok h
  | a :: ps' => h' ← Page_delete h a; delete_pages ps' h'
  end.

(** [Table::~Table]. *)
Definition Table_dtor (t : Table) (h : heap) : result heap :=
  delete_pages (pages t) h.

(** The loop of [Database::~Database] over the tables in the order [ts];
    the source iterates an [unordered_map], whose order is unspecified. *)
Fixpoint delete_tables (ts : list Table) (h : heap) : result heap :=
  match ts with
  | [] => Ok h
  | t :: ts' => h' ← Table_dtor t h; delete_tables ts' h'
  end.

(** [ExecutionEngine::executeCreateTable] and
    [ExecutionEngine::executeInsertInto] of [user_input.cpp]. *)
Definition executeCreateTable (tableName : string) (recordsPerPage : Z)
    (db : Database) : Database :=
  createTable tableName recordsPerPage db.

Definition executeInsertInto (tableName record : string) (db : Database)
    : result Database :=
  insertInto tableName record db.

(** ** Notions for the statements about well-formed page stores *)

(** A NUL byte occurs in the payload. *)
Fixpoint has_nul (s : string) : bool :=
  match s with
  | EmptyString => false
  | String c rest => Ascii.eqb c Ascii.zero || has_nul rest
  end.

(** The three bytes a, NUL, b. *)
Definition a_nul_b : string :=
  String (Ascii.ascii_of_nat 97) (String Ascii.zero "b").

(** The page store with the cells of [ps] emptied. *)
Definition released (ps : list loc) (h : heap) : heap :=
  foldl (λ h' a, <[a := None]> h') h ps.

(** The count of a page fits its allocation and is an [int]. *)
Definition page_wf (pg : Page) : Prop :=
  numRecords pg ≤ Z.of_nat (length (records pg)) ∧ numRecords pg ≤ INT_MAX.

(** The pages of a table are distinct live cells with fitting counts, and
    there are at most [INT_MAX] of them. *)
Definition store_wf (ps : list loc) (h : heap) : Prop :=
  NoDup ps
  ∧ Z.of_nat (length ps) ≤ INT_MAX
  ∧ ∀ a, a ∈ ps → ∃ pg, h !! a = Some (Some pg) ∧ page_wf pg.

(** The slots below the count of the page at [a]. *)
Definition page_slots (h : heap) (a : loc) : list (option string) :=
  match h !! a with
  | Some (Some pg) => take (Z.to_nat (numRecords pg)) (records pg)
  | _ => []
  end.

(** The slots below the counts of the pages [ps], page after page. *)
Fixpoint stored (h : heap) (ps : list loc) : list (option string) :=
  match ps with
  | [] => []
  | a :: ps' => page_slots h a ++ stored h ps'
  end.

(** A cell of [h'] either is as in [h] or has been emptied. *)
Definition only_frees (h h' : heap) : Prop :=
  length h' = length h ∧ ∀ a, h' !! a = h !! a ∨ h' !! a = Some None.

(** What one call does to the store and to the page under the cursor:
    either nothing, or the page under the cursor has been released. *)
Definition call_effect (h : heap) (op : TableScanOperator)
    (res : result (option string * (heap * TableScanOperator))) : Prop :=
  match res with
  | Ok (_, (h', op')) =>
      only_frees h h'
      ∧ ((h' = h ∧ currentPage op' = currentPage op)
         ∨ (∀ a, currentPage op = Some a → h' !! a = Some None))
  | _ => True
  end.




(** * Properties *)

(** ** Catalog *)

Section Catalog.
Implicit Types (db : Database) (nm : string) (cap : Z).

(** C6.  Creating a table under a name that is already bound reports
    "Table already exists" on the error stream and changes neither the
    catalog nor the page store: the bound table keeps its pages. *)
Theorem createTable_already_exists nm cap db t :
  tables db !! nm = Some t →
  createTable nm cap db
    = mkDatabase (tables db) (store db)
                 (log db ++ [cerr ("Table already exists: " +:+ nm)])
  ∧ tables (createTable nm cap db) !! nm = Some t
  ∧ store (createTable nm cap db) = store db.
Proof.
  intros Hbound. unfold createTable. rewrite Hbound. cbn. auto.
Qed.

(** C7.  Inserting under an unbound name reports "Table not found" on the
    error stream and returns; the catalog (hence its set of bound names)
    and the page store are the ones it was given. *)
Theorem insertInto_not_found nm payload db :
  tables db !! nm = None →
  ∃ db', insertInto nm payload db = Ok db'
       ∧ tables db' = tables db
       ∧ dom (tables db') = dom (tables db)
       ∧ store db' = store db
       ∧ log db' = log db ++ [cerr ("Table not found: " +:+ nm)].
Proof.
  intros Hfree. unfold insertInto. rewrite Hfree.
  eexists. split; [reflexivity|]. cbn. auto.
Qed.

(** C8 (as the code has it).  [createTable] never looks at the capacity:
    under an unbound name it binds a table with no pages and exactly the
    capacity it was given, whatever its sign, and reports "Table created". *)
Theorem createTable_binds_any_capacity nm cap db :
  tables db !! nm = None →
  createTable nm cap db
    = mkDatabase (<[nm := mkTable nm [] cap]> (tables db)) (store db)
                 (log db ++ [cout ("Table created: " +:+ nm)])
  ∧ tables (createTable nm cap db) !! nm = Some (mkTable nm [] cap).
Proof.
  intros Hfree. unfold createTable. rewrite Hfree. cbn.
  split; [reflexivity|]. apply lookup_insert_eq.
Qed.
End Catalog.

Lemma createTable_already_exists_witness :
  tables (createTable "T" 5 empty_db) !! "T" = Some (Table_ctor "T" 5)
  ∧ createTable "T" 5 (createTable "T" 5 empty_db)
    = mkDatabase (tables (createTable "T" 5 empty_db)) []
        [cout "Table created: T"; cerr "Table already exists: T"].
Proof.
  assert (H : tables (createTable "T" 5 empty_db) !! "T" = Some (Table_ctor "T" 5))
    by (vm_compute; reflexivity).
  split; [exact H|].
  exact (proj1 (createTable_already_exists "T" 5 (createTable "T" 5 empty_db) _ H)).
Defined.

Lemma insertInto_not_found_witness :
  tables empty_db !! "Ghost" = None
  ∧ ∃ db', insertInto "Ghost" "x" empty_db = Ok db'
         ∧ tables db' = tables empty_db
         ∧ dom (tables db') = dom (tables empty_db)
         ∧ store db' = store empty_db
         ∧ log db' = log empty_db ++ [cerr "Table not found: Ghost"].
Proof.
  split; [reflexivity|].
  exact (insertInto_not_found "Ghost" "x" empty_db eq_refl).
Defined.

Lemma createTable_binds_any_capacity_witness :
  tables empty_db !! "T" = None
  ∧ createTable "T" (-3) empty_db
    = mkDatabase (<["T" := mkTable "T" [] (-3)]> ∅) [] [cout "Table created: T"]
  ∧ tables (createTable "T" (-3) empty_db) !! "T" = Some (mkTable "T" [] (-3)).
Proof.
  split; [reflexivity|].
  exact (createTable_binds_any_capacity "T" (-3) empty_db eq_refl).
Defined.

(** C8 (as the spec has it) fails: a capacity of zero and a negative capacity
    are both accepted, the table is bound and "Table created" is reported. *)
Lemma createTable_nonpositive_capacity_bound :
  createTable "Z" 0 empty_db
    = mkDatabase (<["Z" := mkTable "Z" [] 0]> ∅) [] [cout "Table created: Z"]
  ∧ getTable "Z" (createTable "Z" 0 empty_db) = Some (mkTable "Z" [] 0)
  ∧ getTable "N" (createTable "N" (-1) empty_db) = Some (mkTable "N" [] (-1)).
Proof. repeat split; vm_compute; reflexivity. Qed.

(** ** The driver, for any operator *)

Section DriverFacts.
Context {St : Type}.
Variable next : St → result (option string * St).

(** The driver returns normally exactly when some [Next] call returns null:
    the sink has then received the values before that first null, one call
    each and in order, and none after it. *)
Lemma drive_pulls fuel (s : St) out s' :
  drive next fuel s = Ok (out, s')
  ↔ (length out < fuel)%nat
    ∧ pulls next (S (length out)) s = Ok (map Some out ++ [None], s').
Proof.
  split.
  - revert s out s'. induction fuel as [|fuel IH]; intros s out s'; [discriminate|].
    cbn [drive pulls]. destruct (next s) as [[r s1]| |]; cbn; try discriminate.
    destruct r as [record|].
    + destruct (drive next fuel s1) as [[out1 s2]| |] eqn:E; cbn; try discriminate.
      intros [= <- <-]. apply IH in E as [Hlen Hp]. split; [cbn; lia|].
      cbn [length]. rewrite Hp. reflexivity.
    + intros [= <- <-]. split; [cbn; lia|]. reflexivity.
  - revert fuel s. induction out as [|x out IH]; intros fuel s [Hlen Hp].
    + destruct fuel as [|fuel]; [cbn in Hlen; lia|].
      cbn in Hp |- *. destruct (next s) as [[r s1]| |]; cbn in *; try discriminate.
      injection Hp as -> ->. reflexivity.
    + destruct fuel as [|fuel]; [cbn in Hlen; lia|].
      cbn [length] in Hp. cbn [drive]. cbn [pulls] in Hp. fold (pulls next) in Hp.
      destruct (next s) as [[r s1]| |]; cbn in *; try discriminate.
      destruct (next s1) as [[r2 s2]| |] eqn:E2; cbn in *; try discriminate.
      specialize (IH fuel s1). cbn [pulls] in IH. rewrite E2 in IH. cbn in IH.
      destruct (pulls next (length out) s2) as [[rs s3]| |]; cbn in *; try discriminate.
      injection Hp as -> Hrs ->. rewrite IH; [reflexivity|].
      split; [lia|]. rewrite <- Hrs. reflexivity.
Qed.

(** More fuel never changes an outcome that was reached. *)
Lemma drive_fuel_mono fuel fuel' (s : St) :
  (fuel ≤ fuel')%nat → drive next fuel s ≠ NoFuel →
  drive next fuel' s = drive next fuel s.
Proof.
  revert fuel' s. induction fuel as [|fuel IH]; intros fuel' s Hle Hres; [done|].
  destruct fuel' as [|fuel']; [lia|].
  cbn [drive] in *. destruct (next s) as [[r s1]| |]; cbn in *; try done.
  destruct r as [record|]; [|done].
  rewrite (IH fuel' s1); [done|lia|].
  intros E. rewrite E in Hres. cbn in Hres. done.
Qed.

Variable inv : St → Prop.
Variable measure : St → nat.
Hypothesis next_total : ∀ s, inv s → next s ≠ NoFuel.
Hypothesis next_inv : ∀ s r s', inv s → next s = Ok (r, s') → inv s'.
Hypothesis next_decr :
  ∀ s x s', inv s → next s = Ok (Some x, s') → (measure s' < measure s)%nat.

(** When every produced record lowers a measure, the driver terminates. *)
Lemma drive_enough_fuel fuel (s : St) :
  inv s → (measure s < fuel)%nat → drive next fuel s ≠ NoFuel.
Proof.
  revert s. induction fuel as [|fuel IH]; intros s Hinv Hm; [lia|].
  cbn [drive]. destruct (next s) as [[r s1]| |] eqn:E; cbn; try done.
  - destruct r as [x|]; [|done].
    assert (Hn : drive next fuel s1 ≠ NoFuel).
    { apply IH; [eauto|]. apply next_decr in E; [lia|done]. }
    destruct (drive next fuel s1) as [[out s2]| |]; cbn; done.
  - by apply next_total in E.
Qed.

Lemma drive_terminates (s : St) :
  inv s →
  ∃ r, r ≠ NoFuel ∧ ∀ fuel, (measure s < fuel)%nat → drive next fuel s = r.
Proof.
  intros Hinv. exists (drive next (S (measure s)) s).
  assert (H0 : drive next (S (measure s)) s ≠ NoFuel)
    by (apply drive_enough_fuel; [done|lia]).
  split; [done|]. intros fuel Hfuel. apply drive_fuel_mono; [lia|done].
Qed.
End DriverFacts.

(** ** The scan cursor *)

Lemma scan_ok_ctor t : scan_ok (TableScanOperator_ctor t).
Proof. unfold scan_ok, INT_MAX. cbn. lia. Qed.

Lemma int_incr_Ok x y : int_incr x = Ok y → y = x + 1 ∧ x < INT_MAX.
Proof.
  unfold int_incr. destruct (Z.ltb_spec x INT_MAX); [|discriminate].
  intros [= <-]. lia.
Qed.

Lemma getPage_Some t pn a :
  0 ≤ pn ≤ INT_MAX → getPage t pn = Some a →
  pn < Z.of_nat (length (pages t)) ∧ pages t !! Z.to_nat pn = Some a.
Proof.
  intros Hpn. unfold getPage, to_size_t.
  rewrite Z.mod_small by (unfold INT_MAX in Hpn; lia).
  destruct (Z.ltb_spec pn (Z.of_nat (length (pages t)))); [|discriminate].
  auto.
Qed.

Lemma getPage_beyond t pn :
  Z.of_nat (length (pages t)) ≤ pn ≤ INT_MAX → getPage t pn = None.
Proof.
  intros Hpn. unfold getPage, to_size_t.
  rewrite Z.mod_small by (unfold INT_MAX in Hpn; lia).
  destruct (Z.ltb_spec pn (Z.of_nat (length (pages t)))); [lia|done].
Qed.

(** The primitive steps never run out of fuel: they use none. *)
Lemma int_incr_fuel x : int_incr x ≠ NoFuel.
Proof. unfold int_incr. by destruct (_ <? _). Qed.

Lemma load_slot_fuel slots i : load_slot slots i ≠ NoFuel.
Proof. unfold load_slot. destruct (_ && _); [|done]. by destruct (_ !! _). Qed.

Lemma deref_fuel (h : heap) a : deref h a ≠ NoFuel.
Proof. unfold deref. by destruct (h !! a) as [[pg|]|]. Qed.

Lemma Page_delete_fuel (h : heap) a : Page_delete h a ≠ NoFuel.
Proof.
  unfold Page_delete. destruct (deref h a) as [pg| |] eqn:E; cbn; try done.
  - by destruct (_ <=? _).
  - by apply deref_fuel in E.
Qed.

Lemma yield_step_ok t h op a pg :
  scan_ok op → step_ok t op (yield h op a pg).
Proof.
  intros [Hpn Hidx]. unfold yield.
  destruct (load_slot (records pg) (currentRecordIndex op)) as [r| |] eqn:El;
    cbn; try done; [|by apply load_slot_fuel in El].
  destruct (int_incr (currentRecordIndex op)) as [i'| |] eqn:Ei;
    cbn; try done; [|by apply int_incr_fuel in Ei].
  apply int_incr_Ok in Ei as [-> Hlt].
  split; [unfold scan_ok; cbn; lia|].
  intros _. unfold potential; cbn. unfold INT_MAX in *. lia.
Qed.

(** Moving to the next page: [pn] is the incremented page number and [a']
    the page found there. *)
Lemma next_page_ok t op pn a' :
  scan_ok op → pn = currentPageNum op + 1 → pn < INT_MAX + 1 →
  getPage t pn = Some a' →
  scan_ok (mkScan 0 pn (Some a'))
  ∧ (potential t (mkScan 0 pn (Some a')) < potential t op)%nat
  ∧ (Z.to_nat (Z.of_nat (length (pages t)) - pn)
     < Z.to_nat (Z.of_nat (length (pages t)) - currentPageNum op))%nat.
Proof.
  intros [Hpn Hidx] -> Hlt Hg. apply getPage_Some in Hg as [Hin _]; [|lia].
  unfold scan_ok, potential; cbn. unfold INT_MAX in *. lia.
Qed.

Lemma UserInput_Next_loop_ok fuel t h op :
  scan_ok op →
  (Z.to_nat (Z.of_nat (length (pages t)) - currentPageNum op) < fuel)%nat →
  step_ok t op (UserInput.Next_loop fuel t h op).
Proof.
  revert h op. induction fuel as [|fuel IH]; intros h op Hok Hfuel; [lia|].
  assert (Hbody : ∀ release : result heap, release ≠ NoFuel →
    step_ok t op
      (pn ← int_incr (currentPageNum op);
       h' ← release;
       match getPage t pn with
       | None => Ok (None, (h', mkScan (currentRecordIndex op) pn None))
       | Some a' => UserInput.Next_loop fuel t h' (mkScan 0 pn (Some a'))
       end)).
  { intros release Hrel.
    destruct (int_incr (currentPageNum op)) as [pn| |] eqn:Ep;
      cbn; try done; [|by apply int_incr_fuel in Ep].
    apply int_incr_Ok in Ep as [-> Hlt].
    destruct release as [h'| |]; cbn; try done.
    destruct (getPage t (currentPageNum op + 1)) as [a'|] eqn:Eg.
    - destruct (next_page_ok t op _ a' Hok eq_refl ltac:(lia) Eg) as (Hok1 & Hpot1 & Hm).
      specialize (IH h' (mkScan 0 (currentPageNum op + 1) (Some a')) Hok1).
      unfold step_ok in IH |- *.
      destruct (UserInput.Next_loop fuel t h' _) as [[r [h2 op2]]| |].
      + destruct IH as [Hok2 Hpot]; [cbn; lia|].
        split; [done|]. intros Hr. specialize (Hpot Hr). lia.
      + done.
      + apply IH. cbn. lia.
    - destruct Hok as [Hpn Hidx].
      split; [unfold scan_ok; cbn; lia|]. intros [x Hx]. discriminate. }
  cbn [UserInput.Next_loop]. destruct (currentPage op) as [a|]; [|by apply Hbody].
  destruct (deref h a) as [pg| |] eqn:Ed; cbn; try done; [|by apply deref_fuel in Ed].
  destruct (numRecords pg <=? currentRecordIndex op);
    [apply Hbody, Page_delete_fuel|].
  by apply yield_step_ok.
Qed.

Lemma TempCodeRunnerFile_Next_rec_ok fuel t h op :
  scan_ok op →
  (Z.to_nat (Z.of_nat (length (pages t)) - currentPageNum op) ≤ S fuel)%nat →
  step_ok t op (TempCodeRunnerFile.Next_rec fuel t h op).
Proof.
  revert h op. induction fuel as [|fuel IH]; intros h op Hok Hfuel.
  all: cbn [TempCodeRunnerFile.Next_rec].
  all: destruct (currentPage op) as [a|];
    [|split; [done|intros [x Hx]; discriminate]].
  all: destruct (deref h a) as [pg| |] eqn:Ed; cbn; try done;
    [|by apply deref_fuel in Ed].
  all: destruct (currentRecordIndex op <? numRecords pg); [by apply yield_step_ok|].
  all: destruct (int_incr (currentPageNum op)) as [pn| |] eqn:Ep;
    cbn; try done; [|by apply int_incr_fuel in Ep].
  all: apply int_incr_Ok in Ep as [-> Hlt].
  all: destruct (Page_delete h a) as [h'| |] eqn:Edel; cbn; try done;
    [|by apply Page_delete_fuel in Edel].
  all: destruct (getPage t (currentPageNum op + 1)) as [a'|] eqn:Eg;
    [|destruct Hok as [Hpn Hidx]; split;
      [unfold scan_ok; cbn; lia|intros [x Hx]; discriminate]].
  all: destruct (next_page_ok t op _ a' Hok eq_refl ltac:(lia) Eg) as (Hok1 & Hpot1 & Hm).
  - apply getPage_Some in Eg as [Hin _]; [|destruct Hok; lia]. lia.
  - specialize (IH h' (mkScan 0 (currentPageNum op + 1) (Some a')) Hok1).
    unfold step_ok in IH |- *.
    destruct (TempCodeRunnerFile.Next_rec fuel t h' _) as [[r [h2 op2]]| |].
    + destruct IH as [Hok2 Hpot]; [cbn; lia|].
      split; [done|]. intros Hr. specialize (Hpot Hr). lia.
    + done.
    + apply IH. cbn. lia.
Qed.

Lemma UserInput_Next_ok t (s : heap * TableScanOperator) :
  scan_ok s.2 → step_ok t s.2 (UserInput.Next t s).
Proof.
  intros Hok. apply UserInput_Next_loop_ok; [done|].
  destruct Hok as [Hpn _]. lia.
Qed.

Lemma TempCodeRunnerFile_Next_ok t (s : heap * TableScanOperator) :
  scan_ok s.2 → step_ok t s.2 (TempCodeRunnerFile.Next t s).
Proof.
  intros Hok. apply TempCodeRunnerFile_Next_rec_ok; [done|].
  destruct Hok as [Hpn _]. lia.
Qed.

(** The fuel [Next] hands to its loop always suffices. *)
Lemma UserInput_Next_total t (s : heap * TableScanOperator) :
  scan_ok s.2 → UserInput.Next t s ≠ NoFuel.
Proof.
  intros Hok E. pose proof (UserInput_Next_ok t s Hok) as H. by rewrite E in H.
Qed.

Lemma TempCodeRunnerFile_Next_total t (s : heap * TableScanOperator) :
  scan_ok s.2 → TempCodeRunnerFile.Next t s ≠ NoFuel.
Proof.
  intros Hok E. pose proof (TempCodeRunnerFile_Next_ok t s Hok) as H. by rewrite E in H.
Qed.

(** A driver over any [Next] that respects [step_ok] terminates from a
    freshly constructed cursor, with fuel beyond the cursor's potential. *)
Lemma scan_drive_terminates t (next : heap * TableScanOperator → _) (h : heap) :
  (∀ s, scan_ok s.2 → step_ok t s.2 (next s)) →
  ∃ r, r ≠ NoFuel
     ∧ ∀ fuel, (potential t (TableScanOperator_ctor t) < fuel)%nat →
               drive next fuel (h, TableScanOperator_ctor t) = r.
Proof.
  intros Hstep.
  unshelve refine (drive_terminates next (λ s, scan_ok s.2) (λ s, potential t s.2)
                     _ _ _ (h, TableScanOperator_ctor t) _); cbn beta.
  4: apply scan_ok_ctor.
  - intros s Hok E. specialize (Hstep s Hok). by rewrite E in Hstep.
  - intros s r [h' op'] Hok E. specialize (Hstep s Hok). rewrite E in Hstep.
    apply Hstep.
  - intros s x [h' op'] Hok E. specialize (Hstep s Hok). rewrite E in Hstep.
    apply Hstep. by eexists.
Qed.

(** End-of-stream is the null pointer, which is also what an unwritten
    slot holds.  Over any table and page store, the loop of [executeSelect]
    and of [execute] terminates; when it returns it has handed the sink the
    values [Next] produced before its first null, each once and in order,
    whatever made that value null; and what [executeSelect] adds to the
    output is one "Record: " line per such value. *)
Theorem driver_stops_at_first_null t (h : heap) :
  let s0 := (h, TableScanOperator_ctor t) in
  (∃ r, r ≠ NoFuel ∧ ∀ fuel, (potential t s0.2 < fuel)%nat →
        drive (UserInput.Next t) fuel s0 = r)
  ∧ (∃ r, r ≠ NoFuel ∧ ∀ fuel, (potential t s0.2 < fuel)%nat →
          drive (TempCodeRunnerFile.Next t) fuel s0 = r)
  ∧ (∀ fuel out s',
       drive (UserInput.Next t) fuel s0 = Ok (out, s')
       ↔ (length out < fuel)%nat ∧ first_null (UserInput.Next t) s0 out s')
  ∧ (∀ fuel out s',
       drive (TempCodeRunnerFile.Next t) fuel s0 = Ok (out, s')
       ↔ (length out < fuel)%nat ∧ first_null (TempCodeRunnerFile.Next t) s0 out s')
  ∧ (∀ fuel nm db db',
       getTable nm db = Some t → store db = h →
       UserInputEngine.executeSelect fuel nm db = Ok db' →
       ∃ out s', first_null (UserInput.Next t) s0 out s'
               ∧ log db' = log db ++ map sink out)
  ∧ (∀ fuel evs s',
       TempCodeRunnerFileEngine.execute (TempCodeRunnerFile.Next t) fuel s0 = Ok (evs, s') →
       ∃ out, first_null (TempCodeRunnerFile.Next t) s0 out s'
            ∧ evs = map sink out).
Proof.
  cbv zeta. split; [|split; [|split; [|split; [|split]]]].
  - apply scan_drive_terminates, UserInput_Next_ok.
  - apply scan_drive_terminates, TempCodeRunnerFile_Next_ok.
  - intros. apply drive_pulls.
  - intros. apply drive_pulls.
  - intros fuel nm db db' Ht <-. unfold UserInputEngine.executeSelect. rewrite Ht.
    destruct (drive _ fuel _) as [[out [h1 op]]| |] eqn:E; cbn; try discriminate.
    destruct (TableScanOperator_dtor h1 op) as [h2| |]; cbn; try discriminate.
    intros [= <-]. exists out, (h1, op). split; [|done].
    by apply drive_pulls in E as [_ E].
  - intros fuel evs s'. unfold TempCodeRunnerFileEngine.execute.
    destruct (drive _ fuel _) as [[out s1]| |] eqn:E; cbn; try discriminate.
    intros [= <- <-]. exists out. split; [|done].
    by apply drive_pulls in E as [_ E].
Qed.

Lemma driver_stops_at_first_null_witness :
  drive (UserInput.Next holed_table) 5 (holed_store, TableScanOperator_ctor holed_table)
    = Ok (["A"], (holed_store, mkScan 2 0 (Some 0%nat)))
  ∧ first_null (UserInput.Next holed_table)
      (holed_store, TableScanOperator_ctor holed_table)
      ["A"] (holed_store, mkScan 2 0 (Some 0%nat)).
Proof.
  assert (E : drive (UserInput.Next holed_table) 5
                (holed_store, TableScanOperator_ctor holed_table)
              = Ok (["A"], (holed_store, mkScan 2 0 (Some 0%nat))))
    by (vm_compute; reflexivity).
  split; [exact E|].
  exact (proj2 (proj1
    (proj1 (proj2 (proj2 (driver_stops_at_first_null holed_table holed_store))) 5%nat _ _) E)).
Defined.

(** The values [Next] goes on to return after that null are records of the
    table that the driver never hands to the sink. *)
Example null_slot_hides_later_records :
  pulls (UserInput.Next holed_table) 5 (holed_store, TableScanOperator_ctor holed_table)
    = Ok ([Some "A"; None; Some "B"; Some "C"; None],
          ([None; None], mkScan 1 2 None))
  ∧ pulls (TempCodeRunnerFile.Next holed_table) 5
      (holed_store, TableScanOperator_ctor holed_table)
    = Ok ([Some "A"; None; Some "B"; Some "C"; None],
          ([None; None], mkScan 1 2 None))
  ∧ TempCodeRunnerFileEngine.scanTable 5 holed_table holed_store
    = Ok ([cout "Record: A"], [None; Some (mkPage None [Some "C"] 1)]).
Proof. repeat split; vm_compute; reflexivity. Qed.

(** ** Scanning a table that was never inserted into *)

Lemma UserInput_Next_new_table nm cap (h : heap) :
  UserInput.Next (Table_ctor nm cap) (h, TableScanOperator_ctor (Table_ctor nm cap))
  = Ok (None, (h, mkScan 0 1 None)).
Proof. reflexivity. Qed.

Lemma TempCodeRunnerFile_Next_new_table nm cap (h : heap) :
  TempCodeRunnerFile.Next (Table_ctor nm cap) (h, TableScanOperator_ctor (Table_ctor nm cap))
  = Ok (None, (h, mkScan 0 0 None)).
Proof. reflexivity. Qed.

(** Selecting from a table that was created and never inserted into adds no
    line to the output and changes nothing else. *)
Lemma executeSelect_new_table nm cap db fuel :
  tables db !! nm = None →
  UserInputEngine.executeSelect (S fuel) nm (createTable nm cap db)
  = Ok (createTable nm cap db).
Proof.
  intros Hfree. unfold UserInputEngine.executeSelect, getTable, createTable.
  rewrite Hfree. cbn [tables store log]. rewrite lookup_insert_eq.
  cbn [drive]. rewrite UserInput_Next_new_table. cbn. by rewrite app_nil_r.
Qed.

(** C9.  Over a table as [createTable] leaves it (no pages), the first
    [Next] of a fresh scan returns null in both variants, the page store is
    untouched, and the driver hands nothing to the sink. *)
Theorem scan_of_new_table_is_empty nm cap (h : heap) fuel :
  let t := Table_ctor nm cap in
  let s0 := (h, TableScanOperator_ctor t) in
  UserInput.Next t s0 = Ok (None, (h, mkScan 0 1 None))
  ∧ TempCodeRunnerFile.Next t s0 = Ok (None, (h, mkScan 0 0 None))
  ∧ drive (UserInput.Next t) (S fuel) s0 = Ok ([], (h, mkScan 0 1 None))
  ∧ drive (TempCodeRunnerFile.Next t) (S fuel) s0 = Ok ([], (h, mkScan 0 0 None))
  ∧ TempCodeRunnerFileEngine.scanTable (S fuel) t h = Ok ([], h)
  ∧ UserInputEngine.executeSelect (S fuel) nm (createTable nm cap empty_db)
    = Ok (createTable nm cap empty_db).
Proof.
  cbv zeta. split_and!.
  - apply UserInput_Next_new_table.
  - apply TempCodeRunnerFile_Next_new_table.
  - cbn [drive]. by rewrite UserInput_Next_new_table.
  - cbn [drive]. by rewrite TempCodeRunnerFile_Next_new_table.
  - unfold TempCodeRunnerFileEngine.scanTable, TempCodeRunnerFileEngine.execute.
    cbn [drive]. by rewrite TempCodeRunnerFile_Next_new_table.
  - by apply executeSelect_new_table.
Qed.

(** ** Insertion *)

Lemma addPage_Ok t (h : heap) :
  0 ≤ numRecordsPerPage t →
  addPage t h
  = Ok (mkTable (name t) (pages t ++ [length h]) (numRecordsPerPage t),
        h ++ [Some (fresh_page (numRecordsPerPage t))]).
Proof.
  intros Hcap. unfold addPage, Page_ctor.
  destruct (Z.ltb_spec (numRecordsPerPage t) 0); [lia|]. reflexivity.
Qed.

Lemma deref_new_cell (h : heap) pg : deref (h ++ [Some pg]) (length h) = Ok pg.
Proof. unfold deref. by rewrite list_lookup_middle. Qed.

Lemma store_slot_fresh cap v :
  0 ≤ cap → store_slot (records (fresh_page cap)) cap v = Fault OutOfBounds.
Proof.
  intros Hcap. unfold store_slot, fresh_page. cbn [records].
  rewrite length_replicate, Z2Nat.id by done.
  rewrite Z.ltb_irrefl, andb_false_r. reflexivity.
Qed.

(** What follows [addPage] inside [addRecord]: the count is read and
    incremented, then slot [cap] of a [cap]-slot array is written. *)
Lemma addRecord_after_addPage r t (h : heap) :
  (t1h1 ← addPage t h;
   lastPage ← back t1h1.1;
   pg ← deref t1h1.2 lastPage;
   n' ← int_incr (numRecords pg);
   slots ← store_slot (records pg) (numRecords pg) (Some (strcpy r));
   mret (t1h1.1, <[lastPage := Some (mkPage (header pg) slots n')]> t1h1.2))
  = Fault (new_page_fault (numRecordsPerPage t)).
Proof.
  unfold new_page_fault.
  destruct (Z.ltb_spec (numRecordsPerPage t) 0) as [Hneg|Hcap].
  { unfold addPage, Page_ctor.
    destruct (Z.ltb_spec (numRecordsPerPage t) 0); [reflexivity|lia]. }
  rewrite addPage_Ok by done. cbn -[fresh_page].
  unfold back. cbn [pages]. rewrite last_snoc. cbn -[fresh_page].
  rewrite deref_new_cell. cbn -[fresh_page]. cbn [fresh_page numRecords].
  unfold int_incr. destruct (Z.ltb_spec (numRecordsPerPage t) INT_MAX); [|reflexivity].
  cbn -[fresh_page store_slot].
  change (mkPage None (replicate (Z.to_nat (numRecordsPerPage t)) None) (numRecordsPerPage t))
    with (fresh_page (numRecordsPerPage t)).
  rewrite store_slot_fresh by done. reflexivity.
Qed.

(** An insertion that starts a new page never completes. *)
Lemma addRecord_new_page r t (h : heap) :
  pages t = []
  ∨ (∃ a pg, last (pages t) = Some a ∧ h !! a = Some (Some pg)
             ∧ numRecords pg = numRecordsPerPage t) →
  addRecord r t h = Fault (new_page_fault (numRecordsPerPage t)).
Proof.
  intros Hcase. rewrite <- (addRecord_after_addPage r t h). unfold addRecord.
  destruct Hcase as [Hnil|(a & pg & Hlast & Ha & Hfull)].
  - rewrite Hnil. cbn [last]. by destruct (addPage t h) as [[t1 h1]| |].
  - assert (Hd : deref h a = Ok pg) by (unfold deref; by rewrite Ha).
    rewrite Hlast, Hd. cbn.
    rewrite Hfull, Z.eqb_refl. by destruct (addPage t h) as [[t1 h1]| |].
Qed.

(** An insertion into a last page whose count is below its allocation and
    differs from the capacity does what the source intends: the payload
    goes to slot [count] and the count grows by one.  No page the code
    itself allocates is ever in that state. *)
Lemma addRecord_partial_page r t (h : heap) a pg :
  last (pages t) = Some a → h !! a = Some (Some pg) →
  numRecords pg ≠ numRecordsPerPage t →
  0 ≤ numRecords pg < Z.of_nat (length (records pg)) → numRecords pg < INT_MAX →
  addRecord r t h
  = Ok (t, <[a := Some (mkPage (header pg)
                          (<[Z.to_nat (numRecords pg) := Some (strcpy r)]> (records pg))
                          (numRecords pg + 1))]> h).
Proof.
  intros Hlast Ha Hne Hrange Hmax.
  assert (Hd : deref h a = Ok pg) by (unfold deref; by rewrite Ha).
  unfold addRecord. rewrite Hlast, Hd. cbn.
  destruct (Z.eqb_spec (numRecords pg) (numRecordsPerPage t)); [done|]. cbn.
  unfold back. rewrite Hlast. cbn. rewrite Hd. cbn.
  unfold int_incr. destruct (Z.ltb_spec (numRecords pg) INT_MAX); [|lia]. cbn.
  unfold store_slot.
  destruct (Z.leb_spec 0 (numRecords pg)); [|lia].
  destruct (Z.ltb_spec (numRecords pg) (Z.of_nat (length (records pg)))); [|lia].
  reflexivity.
Qed.

(** [Next] on a cursor that stands on a live page with records left. *)
Lemma UserInput_Next_loop_yield fuel t (h : heap) op a pg :
  currentPage op = Some a → deref h a = Ok pg →
  currentRecordIndex op < numRecords pg →
  UserInput.Next_loop fuel t h op = yield h op a pg.
Proof.
  intros Hcp Hd Hlt.
  destruct fuel; cbn [UserInput.Next_loop]; rewrite Hcp, Hd; cbn;
    by destruct (Z.leb_spec (numRecords pg) (currentRecordIndex op)); [lia|].
Qed.

Lemma TempCodeRunnerFile_Next_rec_yield fuel t (h : heap) op a pg :
  currentPage op = Some a → deref h a = Ok pg →
  currentRecordIndex op < numRecords pg →
  TempCodeRunnerFile.Next_rec fuel t h op = yield h op a pg.
Proof.
  intros Hcp Hd Hlt.
  destruct fuel; cbn [TempCodeRunnerFile.Next_rec]; rewrite Hcp, Hd; cbn;
    by destruct (Z.ltb_spec (currentRecordIndex op) (numRecords pg)); [|lia].
Qed.

Lemma getPage_first nm a rest cap : getPage (mkTable nm (a :: rest) cap) 0 = Some a.
Proof. unfold getPage, to_size_t. cbn [pages length]. by rewrite Zmod_0_l. Qed.

(** A scan over a table whose first page is as the constructor leaves it,
    with a positive capacity: the count says [cap] records, slot 0 is null,
    and the first [Next] returns that null, whatever pages follow. *)
Lemma scan_first_page_fresh nm a rest cap (h : heap) :
  0 < cap → h !! a = Some (Some (fresh_page cap)) →
  let t := mkTable nm (a :: rest) cap in
  UserInput.Next t (h, TableScanOperator_ctor t) = Ok (None, (h, mkScan 1 0 (Some a)))
  ∧ TempCodeRunnerFile.Next t (h, TableScanOperator_ctor t)
    = Ok (None, (h, mkScan 1 0 (Some a))).
Proof.
  intros Hcap Ha t.
  assert (Hd : deref h a = Ok (fresh_page cap)) by (unfold deref; by rewrite Ha).
  assert (Hy : yield h (mkScan 0 0 (Some a)) a (fresh_page cap)
               = Ok (None, (h, mkScan 1 0 (Some a)))).
  { unfold yield, load_slot, fresh_page. cbn [records currentRecordIndex].
    rewrite length_replicate, Z2Nat.id by lia.
    destruct (Z.ltb_spec 0 cap); [|lia]. cbn.
    rewrite lookup_replicate_2 by lia. reflexivity. }
  unfold UserInput.Next, TempCodeRunnerFile.Next, TableScanOperator_ctor.
  subst t. rewrite getPage_first. cbn [fst snd].
  by rewrite (UserInput_Next_loop_yield _ _ h _ a (fresh_page cap)),
             (TempCodeRunnerFile_Next_rec_yield _ _ h _ a (fresh_page cap)).
Qed.

Lemma scan_of_fresh_page nm cap (h : heap) :
  0 < cap →
  let t1 := mkTable nm [length h] cap in
  let h1 := h ++ [Some (fresh_page cap)] in
  UserInput.Next t1 (h1, TableScanOperator_ctor t1)
    = Ok (None, (h1, mkScan 1 0 (Some (length h))))
  ∧ TempCodeRunnerFile.Next t1 (h1, TableScanOperator_ctor t1)
    = Ok (None, (h1, mkScan 1 0 (Some (length h)))).
Proof.
  intros Hcap. apply scan_first_page_fresh; [done|]. apply list_lookup_middle. done.
Qed.

Lemma insertInto_new_table nm cap r db :
  tables db !! nm = None →
  insertInto nm r (createTable nm cap db) = Fault (new_page_fault cap).
Proof.
  intros Hfree. unfold insertInto, createTable. rewrite Hfree. cbn [tables store log].
  rewrite lookup_insert_eq.
  rewrite (addRecord_new_page r (Table_ctor nm cap)) by (by left). reflexivity.
Qed.

(** C1 (as the code has it).  With a positive capacity, the first
    [insertInto] after [createTable] already ends in an out-of-bounds write,
    so no insertion sequence followed by a scan ever completes; and the
    slot a scan would read first on the page just allocated holds null. *)
Theorem insert_then_scan_never_completes nm cap r rs db fuel :
  tables db !! nm = None → 0 < cap < INT_MAX →
  (db' ← insertAll nm (r :: rs) (createTable nm cap db);
   UserInputEngine.executeSelect fuel nm db') = Fault OutOfBounds
  ∧ addPage (Table_ctor nm cap) (store db)
    = Ok (mkTable nm [length (store db)] cap, store db ++ [Some (fresh_page cap)])
  ∧ UserInput.Next (mkTable nm [length (store db)] cap)
      (store db ++ [Some (fresh_page cap)],
       TableScanOperator_ctor (mkTable nm [length (store db)] cap))
    = Ok (None, (store db ++ [Some (fresh_page cap)],
                 mkScan 1 0 (Some (length (store db))))).
Proof.
  intros Hfree [Hpos Hmax]. split_and!.
  - cbn [insertAll]. rewrite insertInto_new_table by done. unfold new_page_fault.
    destruct (Z.ltb_spec cap 0); [lia|]. destruct (Z.ltb_spec cap INT_MAX); [|lia].
    reflexivity.
  - rewrite addPage_Ok by (cbn; lia). reflexivity.
  - by apply scan_of_fresh_page.
Qed.

Lemma insert_then_scan_never_completes_witness :
  tables empty_db !! "X" = None ∧ 0 < 2 < INT_MAX
  ∧ (db' ← insertAll "X" ["A"; "B"; "C"] (createTable "X" 2 empty_db);
     UserInputEngine.executeSelect 10 "X" db') = Fault OutOfBounds.
Proof.
  split; [reflexivity|]. split; [unfold INT_MAX; lia|].
  exact (proj1 (insert_then_scan_never_completes "X" 2 "A" ["B"; "C"] empty_db 10
                  eq_refl ltac:(unfold INT_MAX; lia))).
Defined.

(** C2 (as the code has it).  When [addRecord] starts a new page, the page
    arrives with its count already equal to the capacity and every slot
    null; the payload is then aimed at slot [capacity], one past the
    allocation, and the call ends in an out-of-bounds write. *)
Theorem addRecord_new_page_starts_full r t (h : heap) :
  0 < numRecordsPerPage t < INT_MAX →
  pages t = []
  ∨ (∃ a pg, last (pages t) = Some a ∧ h !! a = Some (Some pg)
             ∧ numRecords pg = numRecordsPerPage t) →
  addPage t h
    = Ok (mkTable (name t) (pages t ++ [length h]) (numRecordsPerPage t),
          h ++ [Some (mkPage None (replicate (Z.to_nat (numRecordsPerPage t)) None)
                                  (numRecordsPerPage t))])
  ∧ addRecord r t h = Fault OutOfBounds.
Proof.
  intros [Hpos Hmax] Hcase. split.
  - by rewrite addPage_Ok by lia.
  - rewrite addRecord_new_page by done. unfold new_page_fault.
    destruct (Z.ltb_spec (numRecordsPerPage t) 0); [lia|].
    destruct (Z.ltb_spec (numRecordsPerPage t) INT_MAX); [|lia]. reflexivity.
Qed.

Lemma addRecord_new_page_starts_full_witness :
  0 < 2 < INT_MAX
  ∧ addPage (Table_ctor "X" 2) [] = Ok (mkTable "X" [0%nat] 2, [Some (mkPage None [None; None] 2)])
  ∧ addRecord "A" (Table_ctor "X" 2) [] = Fault OutOfBounds.
Proof.
  split; [unfold INT_MAX; lia|].
  exact (addRecord_new_page_starts_full "A" (Table_ctor "X" 2) []
           ltac:(unfold INT_MAX; cbn; lia) (or_introl eq_refl)).
Defined.

(** C3 (as the code has it).  Whatever the capacity, inserting one or more
    records into a new table never completes: a negative capacity makes the
    allocation throw, and otherwise the first record is written one past the
    slots of its page (or the count overflows at [INT_MAX]).  No table
    holding N ≥ 1 inserted records is ever reached. *)
Theorem addRecords_never_completes nm cap r rs (h : heap) :
  addRecords (r :: rs) (Table_ctor nm cap) h = Fault (new_page_fault cap).
Proof.
  cbn [addRecords]. rewrite addRecord_new_page by (by left). reflexivity.
Qed.

(** ** What a scan does to the page store *)

(** The destructor releases the page under the cursor, which is one of the
    table's pages. *)
Lemma dtor_releases_current_page (h : heap) op a pg :
  currentPage op = Some a → h !! a = Some (Some pg) →
  numRecords pg ≤ Z.of_nat (length (records pg)) →
  TableScanOperator_dtor h op = Ok (<[a := None]> h)
  ∧ <[a := None]> h !! a = Some None.
Proof.
  intros Hcp Ha Hn. unfold TableScanOperator_dtor, Page_delete, deref.
  rewrite Hcp, Ha. cbn.
  destruct (Z.leb_spec (numRecords pg) (Z.of_nat (length (records pg)))); [|lia].
  split; [done|]. apply list_lookup_insert_eq. by eapply lookup_lt_Some.
Qed.

(** Constructing a scan over a table with a live first page and destroying
    it again, without a single [Next], already frees that page. *)
Lemma scan_ctor_dtor_releases_first_page nm a rest cap (h : heap) pg :
  h !! a = Some (Some pg) →
  numRecords pg ≤ Z.of_nat (length (records pg)) →
  TableScanOperator_dtor h (TableScanOperator_ctor (mkTable nm (a :: rest) cap))
  = Ok (<[a := None]> h).
Proof.
  intros Ha Hn. unfold TableScanOperator_ctor. rewrite getPage_first.
  by apply (dtor_releases_current_page h _ a pg).
Qed.

(** C4 (as the code has it).  Driving a scan to end-of-stream releases the
    table's pages: [Next] deletes each page it leaves and the destructor
    deletes the one it stands on.  The catalog still lists those pages, so
    the next scan or insertion goes through a dangling pointer. *)
Theorem scan_releases_table_pages :
  drive (UserInput.Next abc_table) 10 (abc_store, TableScanOperator_ctor abc_table)
    = Ok (["A"; "B"; "C"], ([None; None], mkScan 1 2 None))
  ∧ drive (TempCodeRunnerFile.Next abc_table) 10 (abc_store, TableScanOperator_ctor abc_table)
    = Ok (["A"; "B"; "C"], ([None; None], mkScan 1 2 None))
  ∧ TableScanOperator_dtor abc_store (TableScanOperator_ctor abc_table)
    = Ok [None; Some (mkPage None [Some "C"; None] 1)]
  ∧ TempCodeRunnerFileEngine.scanTable 10 abc_table abc_store
    = Ok ([cout "Record: A"; cout "Record: B"; cout "Record: C"], [None; None])
  ∧ (th ← addPage (Table_ctor "X" 2) [];
     TempCodeRunnerFileEngine.scanTable 10 th.1 th.2) = Ok ([], [None])
  ∧ UserInputEngine.executeSelect 10 "X" abc_db
    = Ok (mkDatabase {["X" := abc_table]} [None; None]
            [cout "Record: A"; cout "Record: B"; cout "Record: C"])
  ∧ (db' ← UserInputEngine.executeSelect 10 "X" abc_db;
     UserInputEngine.executeSelect 10 "X" db') = Fault UseAfterFree
  ∧ (db' ← UserInputEngine.executeSelect 10 "X" abc_db;
     insertInto "X" "D" db') = Fault UseAfterFree.
Proof. split_and!; vm_compute; reflexivity. Qed.

(** ** After exhaustion *)

(** [tempCodeRunnerFile.cpp]: a null [currentPage] is answered at once and
    nothing changes, however often [Next] is called. *)
Lemma TempCodeRunnerFile_Next_exhausted t (h : heap) op :
  currentPage op = None → TempCodeRunnerFile.Next t (h, op) = Ok (None, (h, op)).
Proof.
  intros Hcp. unfold TempCodeRunnerFile.Next. cbn [fst snd].
  destruct (length (pages t)); cbn [TempCodeRunnerFile.Next_rec]; by rewrite Hcp.
Qed.

Lemma TempCodeRunnerFile_exhausted_forever t (h : heap) op k :
  currentPage op = None →
  pulls (TempCodeRunnerFile.Next t) k (h, op) = Ok (replicate k None, (h, op)).
Proof.
  intros Hcp. induction k as [|k IH]; [done|].
  cbn [pulls]. rewrite TempCodeRunnerFile_Next_exhausted by done. cbn.
  rewrite IH. reflexivity.
Qed.

(** [user_input.cpp]: a null [currentPage] sends [Next] into the loop body,
    which increments [currentPageNum] before it asks for the page. *)
Lemma UserInput_Next_exhausted t (h : heap) idx pn :
  Z.of_nat (length (pages t)) ≤ pn + 1 → pn < INT_MAX →
  UserInput.Next t (h, mkScan idx pn None) = Ok (None, (h, mkScan idx (pn + 1) None)).
Proof.
  intros Hsize Hmax. unfold UserInput.Next.
  cbn [fst snd UserInput.Next_loop currentPage currentPageNum currentRecordIndex].
  unfold int_incr. destruct (Z.ltb_spec pn INT_MAX); [|lia]. cbn.
  rewrite getPage_beyond by lia. reflexivity.
Qed.

Lemma UserInput_Next_overflow t (h : heap) idx :
  UserInput.Next t (h, mkScan idx INT_MAX None) = Fault SignedOverflow.
Proof. reflexivity. Qed.

(** As long as the page counter has room, the exhausted cursor keeps
    answering null and leaves the page store alone. *)
Lemma UserInput_exhausted_while_in_range t (h : heap) idx k :
  ∀ pn, Z.of_nat (length (pages t)) ≤ pn + 1 → pn + Z.of_nat k ≤ INT_MAX →
  pulls (UserInput.Next t) k (h, mkScan idx pn None)
  = Ok (replicate k None, (h, mkScan idx (pn + Z.of_nat k) None)).
Proof.
  induction k as [|k IH]; intros pn Hsize Hmax.
  - cbn [pulls replicate]. by rewrite Z.add_0_r.
  - cbn [pulls]. rewrite UserInput_Next_exhausted by lia. cbn.
    rewrite IH by lia. cbn. do 4 f_equal. lia.
Qed.

Section PullsSnoc.
Context {St : Type}.
Variable next : St → result (option string * St).

(** [k + 1] calls are [k] calls and then one more. *)
Lemma pulls_snoc k (s : St) :
  pulls next (S k) s
  = '(rs, s1) ← pulls next k s; '(r, s2) ← next s1; mret (rs ++ [r], s2).
Proof.
  revert s. induction k as [|k IH]; intros s.
  - cbn. by destruct (next s) as [[r s1]| |].
  - change (pulls next (S (S k)) s)
      with ('(r, s') ← next s; '(rs, s'') ← pulls next (S k) s'; mret (r :: rs, s'')).
    change (pulls next (S k) s)
      with ('(r, s') ← next s; '(rs, s'') ← pulls next k s'; mret (r :: rs, s'')).
    destruct (next s) as [[r s1]| |]; cbn -[pulls]; try done.
    rewrite IH. destruct (pulls next k s1) as [[rs s2]| |]; cbn; try done.
    by destruct (next s2) as [[r2 s3]| |].
Qed.
End PullsSnoc.

(** C5 (as the code has it).  Over a table without pages the first [Next]
    already signals end-of-stream.  In [tempCodeRunnerFile.cpp] every later
    call does so too and changes nothing.  In [user_input.cpp] every call
    increments [currentPageNum]: the first [INT_MAX] calls return null, and
    the call after them increments an [int] that holds [INT_MAX]. *)
Theorem Next_after_exhaustion_overflows nm cap (h : heap) :
  let t := Table_ctor nm cap in
  let s0 := (h, TableScanOperator_ctor t) in
  pulls (UserInput.Next t) (Z.to_nat INT_MAX) s0
    = Ok (replicate (Z.to_nat INT_MAX) None, (h, mkScan 0 INT_MAX None))
  ∧ UserInput.Next t (h, mkScan 0 INT_MAX None) = Fault SignedOverflow
  ∧ pulls (UserInput.Next t) (S (Z.to_nat INT_MAX)) s0 = Fault SignedOverflow
  ∧ ∀ k, pulls (TempCodeRunnerFile.Next t) k s0 = Ok (replicate k None, s0).
Proof.
  cbv zeta.
  change (TableScanOperator_ctor (Table_ctor nm cap)) with (mkScan 0 0 None).
  assert (Hk : Z.of_nat (Z.to_nat INT_MAX) = INT_MAX) by (by apply Z2Nat.id).
  revert Hk. generalize (Z.to_nat INT_MAX). intros k Hk.
  assert (E : pulls (UserInput.Next (Table_ctor nm cap)) k (h, mkScan 0 0 None)
              = Ok (replicate k None, (h, mkScan 0 INT_MAX None))).
  { rewrite UserInput_exhausted_while_in_range.
    - by rewrite Z.add_0_l, Hk.
    - cbn. lia.
    - lia. }
  split_and!.
  - exact E.
  - apply UserInput_Next_overflow.
  - rewrite pulls_snoc, E. cbn -[UserInput.Next].
    by rewrite UserInput_Next_overflow.
  - intros k'. by apply TempCodeRunnerFile_exhausted_forever.
Qed.

(** * Further properties of the code *)

(** ** [DiskManager::getPage] *)

(** X1.  For a page number in the non-negative [int] range [getPage] is
    plain indexing into the page vector, null from the vector's size on;
    a negative page number, converted to [size_t], is answered with null
    (for any vector of fewer than 2^63 pages). *)
Theorem getPage_in_int_range t pn :
  (0 ≤ pn ≤ INT_MAX → getPage t pn = pages t !! Z.to_nat pn)
  ∧ (- INT_MAX - 1 ≤ pn < 0 → Z.of_nat (length (pages t)) ≤ 2 ^ 63 →
     getPage t pn = None).
Proof.
  split.
  - intros Hpn. unfold getPage, to_size_t.
    rewrite Z.mod_small by (unfold INT_MAX in Hpn; lia).
    destruct (Z.ltb_spec pn (Z.of_nat (length (pages t)))); [done|].
    symmetry. apply lookup_ge_None. lia.
  - intros Hpn Hsize. unfold getPage, to_size_t.
    assert (E : pn mod 2 ^ 64 = pn + 2 ^ 64).
    { symmetry. apply (Z.mod_unique_pos _ _ (-1)); unfold INT_MAX in Hpn; lia. }
    rewrite E.
    destruct (Z.ltb_spec (pn + 2 ^ 64) (Z.of_nat (length (pages t)))); [|done].
    unfold INT_MAX in Hpn. lia.
Qed.

Lemma getPage_in_int_range_witness :
  getPage abc_table 1 = Some 1%nat
  ∧ getPage abc_table 2 = None
  ∧ getPage abc_table (-1) = None.
Proof.
  pose proof (getPage_in_int_range abc_table 1) as [H1 _].
  pose proof (getPage_in_int_range abc_table 2) as [H2 _].
  pose proof (getPage_in_int_range abc_table (-1)) as [_ H3].
  split_and!.
  - apply H1. unfold INT_MAX. lia.
  - apply H2. unfold INT_MAX. lia.
  - apply H3; [unfold INT_MAX; lia|]. cbn. lia.
Defined.

(** ** The catalog *)

(** X2.  [createTable] followed by [getTable]: the name is bound
    afterwards, to the table it was bound to before or else to a new table
    without pages; every other name resolves as before; no page is
    allocated or released. *)
Theorem createTable_getTable nm cap db :
  getTable nm (createTable nm cap db)
    = Some (default (Table_ctor nm cap) (getTable nm db))
  ∧ (∀ nm', nm' ≠ nm → getTable nm' (createTable nm cap db) = getTable nm' db)
  ∧ store (createTable nm cap db) = store db.
Proof.
  unfold getTable, createTable.
  destruct (tables db !! nm) as [t|] eqn:E; cbn [tables store].
  - rewrite E. split_and!; done.
  - split_and!; [apply lookup_insert_eq| |done].
    intros nm' Hne. by apply lookup_insert_ne.
Qed.

(** ** [strcpy] of a payload *)

Lemma strcpy_prefix s : ∃ rest, s = strcpy s +:+ rest.
Proof.
  induction s as [|c s [rest IH]]; [by exists EmptyString|].
  cbn [strcpy]. destruct (Ascii.eqb c Ascii.zero).
  - by exists (String c s).
  - exists rest. change (String c s = String c (strcpy s +:+ rest)). by f_equal.
Qed.

(** What [strcpy] copies: the payload up to its first NUL byte.
    A payload without NUL is stored unchanged, one with a NUL is cut
    (so it is not stored byte for byte); the stored text is a prefix of the
    payload, holds no NUL, and storing it again changes nothing. *)
Theorem strcpy_cuts_at_first_nul s :
  (has_nul s = false ↔ strcpy s = s)
  ∧ has_nul (strcpy s) = false
  ∧ strcpy (strcpy s) = strcpy s
  ∧ (∃ rest, s = strcpy s +:+ rest)
  ∧ (has_nul s = true →
     ∃ rest, s = strcpy s +:+ String Ascii.zero rest).
Proof.
  split_and!.
  - induction s as [|c s IH]; [done|]. cbn [has_nul strcpy].
    destruct (Ascii.eqb c Ascii.zero); cbn; [split; done|].
    rewrite IH. split; [by intros ->|]. by intros [= ->].
  - induction s as [|c s IH]; [done|]. cbn [strcpy].
    destruct (Ascii.eqb c Ascii.zero) eqn:E; [done|]. cbn [has_nul]. by rewrite E.
  - induction s as [|c s IH]; [done|]. cbn [strcpy].
    destruct (Ascii.eqb c Ascii.zero) eqn:E; [done|]. cbn [strcpy]. by rewrite E, IH.
  - apply strcpy_prefix.
  - induction s as [|c s IH]; [done|]. cbn [has_nul strcpy].
    destruct (Ascii.eqb_spec c Ascii.zero) as [->|Hc]; cbn.
    + intros _. by exists s.
    + intros Hn. destruct (IH Hn) as [rest Hrest]. exists rest.
      change (String c s = String c (strcpy s +:+ String Ascii.zero rest)).
      by f_equal.
Qed.

Lemma strcpy_cuts_at_first_nul_witness :
  strcpy "jaehong, 1" = "jaehong, 1"
  ∧ ∃ rest, a_nul_b
            = strcpy (a_nul_b) +:+ String Ascii.zero rest.
Proof.
  split.
  - exact (proj1 (proj1 (strcpy_cuts_at_first_nul "jaehong, 1")) eq_refl).
  - exact (proj2 (proj2 (proj2 (proj2
             (strcpy_cuts_at_first_nul (a_nul_b))))) eq_refl).
Defined.

(** ** Scans only ever release pages *)

Lemma bind_Ok_inv {A B} (m : result A) (k : A → result B) y :
  m ≫= k = Ok y → ∃ x, m = Ok x ∧ k x = Ok y.
Proof. destruct m as [x| |]; cbn; [eauto|done|done]. Qed.

Lemma only_frees_refl (h : heap) : only_frees h h.
Proof. split; [done|]. by left. Qed.

Lemma only_frees_trans (h1 h2 h3 : heap) :
  only_frees h1 h2 → only_frees h2 h3 → only_frees h1 h3.
Proof.
  intros [Hl1 H1] [Hl2 H2]. split; [congruence|]. intros a.
  destruct (H2 a) as [E|E]; [rewrite E; apply H1|by right].
Qed.

Lemma only_frees_freed (h h' : heap) a :
  only_frees h h' → h !! a = Some None → h' !! a = Some None.
Proof. intros [_ H] Ha. destruct (H a) as [E|E]; congruence. Qed.

Lemma Page_delete_Ok (h h' : heap) a :
  Page_delete h a = Ok h' →
  h' = <[a := None]> h ∧ h' !! a = Some None ∧ only_frees h h'
  ∧ ∃ pg, h !! a = Some (Some pg) ∧ numRecords pg ≤ Z.of_nat (length (records pg)).
Proof.
  unfold Page_delete, deref. destruct (h !! a) as [[pg|]|] eqn:Ha; cbn; try done.
  destruct (Z.leb_spec (numRecords pg) (Z.of_nat (length (records pg)))); [|done].
  intros [= <-].
  assert (Hlt : (a < length h)%nat) by (by eapply lookup_lt_Some).
  split_and!; [done|by apply list_lookup_insert_eq| |by eauto].
  split; [apply length_insert|]. intros b.
  destruct (decide (a = b)) as [<-|Hne].
  - right. by apply list_lookup_insert_eq.
  - left. by apply list_lookup_insert_ne.
Qed.

Lemma Page_delete_freed (h : heap) a :
  h !! a = Some None → Page_delete h a = Fault UseAfterFree.
Proof. intros Ha. unfold Page_delete, deref. by rewrite Ha. Qed.

Lemma yield_Ok h op a pg r h' op' :
  yield h op a pg = Ok (r, (h', op')) →
  h' = h ∧ currentPage op' = Some a ∧ currentPageNum op' = currentPageNum op
  ∧ currentRecordIndex op' = currentRecordIndex op + 1.
Proof.
  unfold yield. intros H.
  apply bind_Ok_inv in H as (r0 & _ & H).
  apply bind_Ok_inv in H as (i' & Hi & H). apply int_incr_Ok in Hi as [-> _].
  by injection H as <- <- <-.
Qed.

Lemma call_effect_after_delete (h h1 : heap) op a
    (res : result (option string * (heap * TableScanOperator))) op1 :
  currentPage op = Some a → Page_delete h a = Ok h1 →
  call_effect h1 op1 res → call_effect h op res.
Proof.
  intros Hcp Hdel. apply Page_delete_Ok in Hdel as (_ & Hfreed & Hof & _).
  destruct res as [[r [h' op']]| |]; cbn; try done.
  intros [Hof' _]. split; [by eapply only_frees_trans|].
  right. intros a0 Ha0. rewrite Hcp in Ha0. injection Ha0 as <-.
  by eapply only_frees_freed.
Qed.

Lemma call_effect_delete_end (h h1 : heap) op a r op' :
  currentPage op = Some a → Page_delete h a = Ok h1 →
  call_effect h op (Ok (r, (h1, op'))).
Proof.
  intros Hcp Hdel. apply Page_delete_Ok in Hdel as (_ & Hfreed & Hof & _).
  split; [done|]. right. intros a0 Ha0. rewrite Hcp in Ha0. by injection Ha0 as <-.
Qed.

Lemma yield_effect (h : heap) op a pg :
  currentPage op = Some a → call_effect h op (yield h op a pg).
Proof.
  intros Hcp. destruct (yield h op a pg) as [[r [h' op']]| |] eqn:E; cbn; try done.
  apply yield_Ok in E as (-> & Hcp' & _). split; [apply only_frees_refl|].
  left. by rewrite Hcp, Hcp'.
Qed.

Lemma UserInput_Next_loop_effect fuel t (h : heap) op :
  call_effect h op (UserInput.Next_loop fuel t h op).
Proof.
  revert h op. induction fuel as [|fuel IH]; intros h op.
  - cbn [UserInput.Next_loop]. destruct (currentPage op) as [a|] eqn:Hcp; [|done].
    destruct (deref h a) as [pg| |]; cbn; try done.
    destruct (numRecords pg <=? currentRecordIndex op); [done|].
    by apply yield_effect.
  - cbn [UserInput.Next_loop]. destruct (currentPage op) as [a|] eqn:Hcp.
    + destruct (deref h a) as [pg| |]; cbn; try done.
      destruct (numRecords pg <=? currentRecordIndex op); [|by apply yield_effect].
      destruct (int_incr (currentPageNum op)) as [pn| |]; cbn; try done.
      destruct (Page_delete h a) as [h1| |] eqn:Hdel; cbn; try done.
      destruct (getPage t pn) as [a'|].
      * eapply call_effect_after_delete; [done..|apply IH].
      * by eapply call_effect_delete_end.
    + destruct (int_incr (currentPageNum op)) as [pn| |]; cbn; try done.
      destruct (getPage t pn) as [a'|].
      * specialize (IH h (mkScan 0 pn (Some a'))).
        destruct (UserInput.Next_loop fuel t h _) as [[r [h' op']]| |]; cbn in *; try done.
        split; [apply IH|]. right. by intros a0 Ha0; rewrite Hcp in Ha0.
      * split; [apply only_frees_refl|]. right. by intros a0 Ha0; rewrite Hcp in Ha0.
Qed.

Lemma TempCodeRunnerFile_Next_rec_effect fuel t (h : heap) op :
  call_effect h op (TempCodeRunnerFile.Next_rec fuel t h op).
Proof.
  revert h op. induction fuel as [|fuel IH]; intros h op.
  all: cbn [TempCodeRunnerFile.Next_rec]; destruct (currentPage op) as [a|] eqn:Hcp;
    [|split; [apply only_frees_refl|by left]].
  all: destruct (deref h a) as [pg| |]; cbn; try done.
  all: destruct (currentRecordIndex op <? numRecords pg); [by apply yield_effect|].
  all: destruct (int_incr (currentPageNum op)) as [pn| |]; cbn; try done.
  all: destruct (Page_delete h a) as [h1| |] eqn:Hdel; cbn; try done.
  all: destruct (getPage t pn) as [a'|];
    [|by eapply call_effect_delete_end].
  - done.
  - eapply call_effect_after_delete; [done..|apply IH].
Qed.

(** X4.  A call of [Next], in either variant, never writes to the page
    store: every cell it returns is as it was or has been released. *)
Theorem Next_only_releases t (h : heap) op r h' op' :
  UserInput.Next t (h, op) = Ok (r, (h', op'))
  ∨ TempCodeRunnerFile.Next t (h, op) = Ok (r, (h', op')) →
  only_frees h h'.
Proof.
  intros [E|E].
  - pose proof (UserInput_Next_loop_effect (S (length (pages t))) t h op) as H.
    unfold UserInput.Next in E. cbn [fst snd] in E. rewrite E in H. apply H.
  - pose proof (TempCodeRunnerFile_Next_rec_effect (length (pages t)) t h op) as H.
    unfold TempCodeRunnerFile.Next in E. cbn [fst snd] in E. rewrite E in H. apply H.
Qed.

Lemma Next_only_releases_witness :
  UserInput.Next abc_table (abc_store, mkScan 2 0 (Some 0%nat))
    = Ok (Some "C", ([None; Some (mkPage None [Some "C"; None] 1)], mkScan 1 1 (Some 1%nat)))
  ∧ only_frees abc_store [None; Some (mkPage None [Some "C"; None] 1)].
Proof.
  assert (E : UserInput.Next abc_table (abc_store, mkScan 2 0 (Some 0%nat))
    = Ok (Some "C", ([None; Some (mkPage None [Some "C"; None] 1)], mkScan 1 1 (Some 1%nat))))
    by (vm_compute; reflexivity).
  split; [exact E|].
  exact (Next_only_releases abc_table abc_store _ _ _ _ (or_introl E)).
Defined.

(** ** The two variants of [Next] against each other *)

(** One unfolding of each variant, whatever the fuel. *)
Lemma TempCodeRunnerFile_Next_rec_unfold fuel t (h : heap) op :
  TempCodeRunnerFile.Next_rec fuel t h op
  = match currentPage op with
    | None => Ok (None, (h, op))
    | Some a =>
        pg ← deref h a;
        if currentRecordIndex op <? numRecords pg
        then yield h op a pg
        else
          pn ← int_incr (currentPageNum op);
          h' ← Page_delete h a;
          match getPage t pn with
          | None => Ok (None, (h', mkScan (currentRecordIndex op) pn None))
          | Some a' =>
              match fuel with
              | O => NoFuel
              | S fuel' =>
                  TempCodeRunnerFile.Next_rec fuel' t h' (mkScan 0 pn (Some a'))
              end
          end
    end.
Proof. by destruct fuel. Qed.

Lemma UserInput_Next_loop_unfold fuel t (h : heap) op :
  UserInput.Next_loop (S fuel) t h op
  = match currentPage op with
    | None =>
        pn ← int_incr (currentPageNum op);
        match getPage t pn with
        | None => Ok (None, (h, mkScan (currentRecordIndex op) pn None))
        | Some a' => UserInput.Next_loop fuel t h (mkScan 0 pn (Some a'))
        end
    | Some a =>
        pg ← deref h a;
        if numRecords pg <=? currentRecordIndex op
        then
          pn ← int_incr (currentPageNum op);
          h' ← Page_delete h a;
          match getPage t pn with
          | None => Ok (None, (h', mkScan (currentRecordIndex op) pn None))
          | Some a' => UserInput.Next_loop fuel t h' (mkScan 0 pn (Some a'))
          end
        else yield h op a pg
    end.
Proof.
  cbn [UserInput.Next_loop]. destruct (currentPage op); [done|].
  by destruct (int_incr (currentPageNum op)).
Qed.

Lemma TempCodeRunnerFile_Next_rec_mono fuel t (h : heap) op :
  TempCodeRunnerFile.Next_rec fuel t h op ≠ NoFuel →
  TempCodeRunnerFile.Next_rec (S fuel) t h op = TempCodeRunnerFile.Next_rec fuel t h op.
Proof.
  revert h op. induction fuel as [|fuel IH]; intros h op.
  all: rewrite (TempCodeRunnerFile_Next_rec_unfold (S _) t h op),
               (TempCodeRunnerFile_Next_rec_unfold _ t h op).
  all: destruct (currentPage op) as [a|]; [|done].
  all: destruct (deref h a) as [pg| |]; cbn [mbind result_bind]; try done.
  all: destruct (currentRecordIndex op <? numRecords pg); [done|].
  all: destruct (int_incr (currentPageNum op)) as [pn| |]; cbn [mbind result_bind]; try done.
  all: destruct (Page_delete h a) as [h1| |]; cbn [mbind result_bind]; try done.
  all: destruct (getPage t pn) as [a'|]; [|done].
  - done.
  - intros Hn. by apply IH.
Qed.

(** With a page under the cursor, the loop of [user_input.cpp] computes
    what the recursion of [tempCodeRunnerFile.cpp] computes. *)
Lemma Next_loop_as_Next_rec fuel t (h : heap) op :
  is_Some (currentPage op) →
  TempCodeRunnerFile.Next_rec fuel t h op ≠ NoFuel →
  UserInput.Next_loop (S fuel) t h op = TempCodeRunnerFile.Next_rec fuel t h op.
Proof.
  revert h op. induction fuel as [|fuel IH]; intros h op [a Hcp].
  all: rewrite (UserInput_Next_loop_unfold _ t h op),
               (TempCodeRunnerFile_Next_rec_unfold _ t h op), Hcp.
  all: destruct (deref h a) as [pg| |] eqn:Hd; cbn [mbind result_bind]; try done.
  all: rewrite (Z.leb_antisym (currentRecordIndex op) (numRecords pg)).
  all: destruct (currentRecordIndex op <? numRecords pg); cbn [negb]; [done|].
  all: destruct (int_incr (currentPageNum op)) as [pn| |]; cbn [mbind result_bind]; try done.
  all: destruct (Page_delete h a) as [h1| |]; cbn [mbind result_bind]; try done.
  all: destruct (getPage t pn) as [a'|]; [|done].
  - done.
  - intros Hn. apply IH; [by eexists|done].
Qed.

Lemma Next_variants_agree t (h : heap) op :
  scan_ok op → is_Some (currentPage op) →
  UserInput.Next t (h, op) = TempCodeRunnerFile.Next t (h, op).
Proof.
  intros Hok Hcp. unfold UserInput.Next, TempCodeRunnerFile.Next. cbn [fst snd].
  apply Next_loop_as_Next_rec; [done|].
  by apply (TempCodeRunnerFile_Next_total t (h, op)).
Qed.

(** A record is only ever returned from the page under the cursor. *)
Lemma TempCodeRunnerFile_Next_rec_Some fuel t (h : heap) op r h' op' :
  TempCodeRunnerFile.Next_rec fuel t h op = Ok (Some r, (h', op')) →
  is_Some (currentPage op').
Proof.
  revert h op. induction fuel as [|fuel IH]; intros h op.
  all: cbn [TempCodeRunnerFile.Next_rec]; destruct (currentPage op) as [a|]; [|done].
  all: destruct (deref h a) as [pg| |]; cbn; try done.
  all: destruct (currentRecordIndex op <? numRecords pg);
    [intros (_ & Hc & _)%yield_Ok; by eexists|].
  all: destruct (int_incr (currentPageNum op)) as [pn| |]; cbn; try done.
  all: destruct (Page_delete h a) as [h1| |]; cbn; try done.
  all: destruct (getPage t pn) as [a'|]; [|done].
  - done.
  - apply IH.
Qed.

Lemma drive_variants_agree fuel t (h : heap) op :
  scan_ok op → is_Some (currentPage op) →
  drive (UserInput.Next t) fuel (h, op) = drive (TempCodeRunnerFile.Next t) fuel (h, op).
Proof.
  revert h op. induction fuel as [|fuel IH]; intros h op Hok Hcp; [done|].
  cbn [drive]. rewrite Next_variants_agree by done.
  pose proof (TempCodeRunnerFile_Next_ok t (h, op) Hok) as Hstep.
  destruct (TempCodeRunnerFile.Next t (h, op)) as [[r [h' op']]| |] eqn:E; cbn; try done.
  destruct r as [r|]; [|done].
  rewrite IH; [done|apply Hstep|].
  unfold TempCodeRunnerFile.Next in E. by eapply TempCodeRunnerFile_Next_rec_Some.
Qed.

Lemma ctor_cases t :
  (pages t = [] ∧ TableScanOperator_ctor t = mkScan 0 0 None)
  ∨ (∃ a rest, pages t = a :: rest ∧ TableScanOperator_ctor t = mkScan 0 0 (Some a)).
Proof.
  destruct t as [nm [|a rest] cap].
  - by left.
  - right. exists a, rest. split; [done|].
    unfold TableScanOperator_ctor. by rewrite getPage_first.
Qed.

(** The page number never goes back, and a call that starts without a
    page moves it forward. *)
Lemma UserInput_Next_loop_pageNum fuel t (h : heap) op r h' op' :
  UserInput.Next_loop fuel t h op = Ok (r, (h', op')) →
  currentPageNum op ≤ currentPageNum op'
  ∧ (currentPage op = None → currentPageNum op < currentPageNum op').
Proof.
  revert h op. induction fuel as [|fuel IH]; intros h op.
  - cbn [UserInput.Next_loop]. destruct (currentPage op) as [a|]; [|done].
    intros (pg & _ & E)%bind_Ok_inv.
    destruct (numRecords pg <=? currentRecordIndex op); [done|].
    apply yield_Ok in E as (_ & _ & -> & _). split; [lia|done].
  - rewrite UserInput_Next_loop_unfold. destruct (currentPage op) as [a|].
    + intros (pg & _ & E)%bind_Ok_inv.
      destruct (numRecords pg <=? currentRecordIndex op).
      * apply bind_Ok_inv in E as (pn & Hpn & E). apply int_incr_Ok in Hpn as [-> _].
        apply bind_Ok_inv in E as (h1 & _ & E).
        destruct (getPage t (currentPageNum op + 1)) as [a'|].
        -- apply IH in E as [E _]. cbn in E. split; [lia|done].
        -- injection E as _ _ <-. cbn. split; [lia|done].
      * apply yield_Ok in E as (_ & _ & -> & _). split; [lia|done].
    + intros (pn & Hpn & E)%bind_Ok_inv. apply int_incr_Ok in Hpn as [-> _].
      destruct (getPage t (currentPageNum op + 1)) as [a'|].
      * apply IH in E as [E _]. cbn in E. split; [lia|intros _; lia].
      * injection E as _ _ <-. cbn. split; [lia|intros _; lia].
Qed.

(** X5.  With a page under the cursor the two variants of [Next] return
    the same value and leave the same store and cursor; they differ only
    on a null [currentPage], where [tempCodeRunnerFile.cpp] returns at once
    and [user_input.cpp] moves the page number forward. *)
Theorem Next_variants_differ_only_on_null t (h : heap) op :
  scan_ok op →
  (is_Some (currentPage op) →
   UserInput.Next t (h, op) = TempCodeRunnerFile.Next t (h, op))
  ∧ (currentPage op = None →
     TempCodeRunnerFile.Next t (h, op) = Ok (None, (h, op))
     ∧ ∀ r s', UserInput.Next t (h, op) = Ok (r, s') →
               currentPageNum op < currentPageNum s'.2).
Proof.
  intros Hok. split; [by apply Next_variants_agree|]. intros Hcp.
  split; [by apply TempCodeRunnerFile_Next_exhausted|].
  intros r [h' op'] E. cbn [snd]. unfold UserInput.Next in E.
  apply UserInput_Next_loop_pageNum in E as [_ E]. by apply E.
Qed.

Lemma Next_variants_differ_only_on_null_witness :
  scan_ok (mkScan 1 0 (Some 0%nat))
  ∧ is_Some (currentPage (mkScan 1 0 (Some 0%nat)))
  ∧ UserInput.Next abc_table (abc_store, mkScan 1 0 (Some 0%nat))
    = TempCodeRunnerFile.Next abc_table (abc_store, mkScan 1 0 (Some 0%nat)).
Proof.
  assert (Hok : scan_ok (mkScan 1 0 (Some 0%nat))) by (unfold scan_ok, INT_MAX; cbn; lia).
  assert (Hcp : is_Some (currentPage (mkScan 1 0 (Some 0%nat)))) by (by eexists).
  split_and!; [exact Hok|exact Hcp|].
  exact (proj1 (Next_variants_differ_only_on_null abc_table abc_store _ Hok) Hcp).
Defined.

(** X6.  The two files scan alike: on a bound table, [executeSelect] of
    [user_input.cpp] prints the lines and leaves the page store that the
    scan block of [tempCodeRunnerFile.cpp]'s [main] prints and leaves,
    faults included. *)
Theorem executeSelect_as_scanTable fuel nm db t :
  getTable nm db = Some t →
  UserInputEngine.executeSelect fuel nm db
  = ('(evs, h') ← TempCodeRunnerFileEngine.scanTable fuel t (store db);
     Ok (mkDatabase (tables db) h' (log db ++ evs))).
Proof.
  intros Ht. unfold UserInputEngine.executeSelect. rewrite Ht.
  unfold TempCodeRunnerFileEngine.scanTable, TempCodeRunnerFileEngine.execute.
  destruct (ctor_cases t) as [[Hnil Hctor]|(a & rest & Hps & Hctor)].
  - rewrite Hctor. destruct t as [n ps c]. cbn in Hnil. subst ps.
    destruct fuel as [|fuel]; [done|]. reflexivity.
  - rewrite drive_variants_agree;
      [|apply scan_ok_ctor|rewrite Hctor; by eexists].
    destruct (drive (TempCodeRunnerFile.Next t) fuel _) as [[out [h1 op]]| |];
      cbn; try done.
    by destruct (TableScanOperator_dtor h1 op).
Qed.

Lemma executeSelect_as_scanTable_witness :
  getTable "X" abc_db = Some abc_table
  ∧ UserInputEngine.executeSelect 10 "X" abc_db
    = ('(evs, h') ← TempCodeRunnerFileEngine.scanTable 10 abc_table (store abc_db);
       Ok (mkDatabase (tables abc_db) h' (log abc_db ++ evs))).
Proof.
  split; [reflexivity|].
  exact (executeSelect_as_scanTable 10 "X" abc_db abc_table eq_refl).
Defined.

(** ** A scan over a well-formed page store *)

Lemma Page_delete_live (h : heap) a pg :
  deref h a = Ok pg → numRecords pg ≤ Z.of_nat (length (records pg)) →
  Page_delete h a = Ok (<[a := None]> h).
Proof.
  intros Hd Hn. unfold Page_delete. rewrite Hd. cbn.
  by destruct (Z.leb_spec (numRecords pg) (Z.of_nat (length (records pg)))); [|lia].
Qed.

Lemma int_incr_lt x : x < INT_MAX → int_incr x = Ok (x + 1).
Proof. intros Hx. unfold int_incr. by destruct (Z.ltb_spec x INT_MAX); [|lia]. Qed.

Lemma TempCodeRunnerFile_Next_yield t (h : heap) op a pg :
  currentPage op = Some a → deref h a = Ok pg →
  currentRecordIndex op < numRecords pg →
  TempCodeRunnerFile.Next t (h, op) = yield h op a pg.
Proof. intros. by apply TempCodeRunnerFile_Next_rec_yield. Qed.

(** At the end of a page that has a successor, a call continues as a call
    on the successor with the page left behind released. *)
Lemma TempCodeRunnerFile_Next_advance t (h : heap) op a pg a' :
  scan_ok op → currentPage op = Some a → deref h a = Ok pg →
  numRecords pg ≤ currentRecordIndex op →
  numRecords pg ≤ Z.of_nat (length (records pg)) →
  getPage t (currentPageNum op + 1) = Some a' →
  currentPageNum op < INT_MAX →
  TempCodeRunnerFile.Next t (h, op)
  = TempCodeRunnerFile.Next t (<[a := None]> h, mkScan 0 (currentPageNum op + 1) (Some a')).
Proof.
  intros Hok Hcp Hd Hend Hfit Hg Hmax. unfold TempCodeRunnerFile.Next. cbn [fst snd].
  pose proof Hok as [Hpn Hidx].
  destruct (getPage_Some t (currentPageNum op + 1) a') as [Hin _]; [lia|done|].
  remember (length (pages t)) as len eqn:Hlen.
  destruct len as [|f]; [lia|].
  rewrite (TempCodeRunnerFile_Next_rec_unfold (S f) t h op), Hcp, Hd.
  cbn [mbind result_bind].
  destruct (Z.ltb_spec (currentRecordIndex op) (numRecords pg)); [lia|].
  rewrite int_incr_lt by done. cbn [mbind result_bind].
  rewrite (Page_delete_live h a pg) by done. cbn [mbind result_bind]. rewrite Hg.
  symmetry. apply TempCodeRunnerFile_Next_rec_mono.
  pose proof (TempCodeRunnerFile_Next_rec_ok f t (<[a:=None]> h)
                (mkScan 0 (currentPageNum op + 1) (Some a'))) as Hs.
  intros E. rewrite E in Hs. apply Hs.
  - unfold scan_ok, INT_MAX in *. cbn. lia.
  - cbn. rewrite <- Hlen. lia.
Qed.

Lemma TempCodeRunnerFile_Next_end t (h : heap) op a pg :
  currentPage op = Some a → deref h a = Ok pg →
  numRecords pg ≤ currentRecordIndex op →
  numRecords pg ≤ Z.of_nat (length (records pg)) →
  getPage t (currentPageNum op + 1) = None →
  currentPageNum op < INT_MAX →
  TempCodeRunnerFile.Next t (h, op)
  = Ok (None, (<[a := None]> h,
               mkScan (currentRecordIndex op) (currentPageNum op + 1) None)).
Proof.
  intros Hcp Hd Hend Hfit Hg Hmax. unfold TempCodeRunnerFile.Next. cbn [fst snd].
  rewrite TempCodeRunnerFile_Next_rec_unfold, Hcp, Hd. cbn [mbind result_bind].
  destruct (Z.ltb_spec (currentRecordIndex op) (numRecords pg)); [lia|].
  rewrite int_incr_lt by done. cbn [mbind result_bind].
  rewrite (Page_delete_live h a pg) by done. cbn [mbind result_bind]. by rewrite Hg.
Qed.

Lemma getPage_lookup t pn :
  0 ≤ pn ≤ INT_MAX → getPage t pn = pages t !! Z.to_nat pn.
Proof.
  intros Hpn. unfold getPage, to_size_t.
  rewrite Z.mod_small by (unfold INT_MAX in Hpn; lia).
  destruct (Z.ltb_spec pn (Z.of_nat (length (pages t)))); [done|].
  symmetry. apply lookup_ge_None. lia.
Qed.

Lemma page_slots_live (h : heap) a pg :
  h !! a = Some (Some pg) →
  page_slots h a = take (Z.to_nat (numRecords pg)) (records pg).
Proof. intros Ha. unfold page_slots. by rewrite Ha. Qed.

Lemma page_slots_insert_ne (h : heap) a b v :
  a ≠ b → page_slots (<[a := v]> h) b = page_slots h b.
Proof. intros Hne. unfold page_slots. by rewrite list_lookup_insert_ne. Qed.

Lemma stored_insert_notin (h : heap) a v ps :
  a ∉ ps → stored (<[a := v]> h) ps = stored h ps.
Proof.
  induction ps as [|b ps IH]; [done|]. intros Hn.
  apply not_elem_of_cons in Hn as [Hne Hn]. cbn [stored].
  by rewrite page_slots_insert_ne, IH.
Qed.

Lemma stored_app (h : heap) ps qs : stored h (ps ++ qs) = stored h ps ++ stored h qs.
Proof.
  induction ps as [|a ps IH]; [done|]. cbn [stored app]. by rewrite IH, app_assoc.
Qed.

Section ScanWalk.
Variable t : Table.
Variable next : heap * TableScanOperator → result (option string * (heap * TableScanOperator)).

Hypothesis next_yield : ∀ (h : heap) op a pg,
  scan_ok op → currentPage op = Some a → deref h a = Ok pg →
  currentRecordIndex op < numRecords pg →
  next (h, op) = yield h op a pg.
Hypothesis next_advance : ∀ (h : heap) op a pg a',
  scan_ok op → currentPage op = Some a → deref h a = Ok pg →
  numRecords pg ≤ currentRecordIndex op →
  numRecords pg ≤ Z.of_nat (length (records pg)) →
  getPage t (currentPageNum op + 1) = Some a' →
  currentPageNum op < INT_MAX →
  next (h, op) = next (<[a := None]> h, mkScan 0 (currentPageNum op + 1) (Some a')).
Hypothesis next_end : ∀ (h : heap) op a pg,
  scan_ok op → currentPage op = Some a → deref h a = Ok pg →
  numRecords pg ≤ currentRecordIndex op →
  numRecords pg ≤ Z.of_nat (length (records pg)) →
  getPage t (currentPageNum op + 1) = None →
  currentPageNum op < INT_MAX →
  next (h, op)
  = Ok (None, (<[a := None]> h,
               mkScan (currentRecordIndex op) (currentPageNum op + 1) None)).

(** Within a page: the calls return the slots from [i] up to the count,
    and go on as they would from the end of the page. *)
Lemma scan_within_page (h : heap) a pg pn m : ∀ i k rs s',
  h !! a = Some (Some pg) → page_wf pg → 0 ≤ pn ≤ INT_MAX → 0 ≤ i →
  m = Z.to_nat (numRecords pg - i) →
  pulls next k (h, mkScan (Z.max i (numRecords pg)) pn (Some a)) = Ok (rs, s') →
  pulls next (m + k) (h, mkScan i pn (Some a))
  = Ok (drop (Z.to_nat i) (page_slots h a) ++ rs, s').
Proof.
  induction m as [|m IH]; intros i k rs s' Ha [Hfit Hint] Hpn Hi Hm Hk.
  - rewrite (page_slots_live h a pg Ha), drop_ge by (rewrite length_take; lia).
    rewrite Z.max_l in Hk by lia. exact Hk.
  - assert (Hd : deref h a = Ok pg) by (unfold deref; by rewrite Ha).
    assert (Hlt : (Z.to_nat i < length (records pg))%nat) by lia.
    destruct (lookup_lt_is_Some_2 _ _ Hlt) as [x Hx].
    rewrite (page_slots_live h a pg Ha).
    rewrite (drop_S _ x (Z.to_nat i)) by (rewrite lookup_take_lt by lia; done).
    cbn [Nat.add pulls app].
    rewrite (next_yield h _ a pg) by (try done; unfold scan_ok; cbn; lia).
    unfold yield, load_slot. cbn [currentRecordIndex currentPageNum].
    destruct (Z.leb_spec 0 i); [|lia].
    destruct (Z.ltb_spec i (Z.of_nat (length (records pg)))); [|lia].
    cbn [andb]. rewrite Hx. cbn [mbind result_bind mret result_ret].
    rewrite int_incr_lt by lia. cbn [mbind result_bind mret result_ret].
    rewrite (IH (i + 1) k rs s'); try done; try lia.
    + cbn. rewrite <- (page_slots_live h a pg Ha).
      by replace (Z.to_nat (i + 1)) with (S (Z.to_nat i)) by lia.
    + by rewrite Z.max_r in * by lia.
Qed.

Lemma released_cons a ps (h : heap) : released (a :: ps) h = released ps (<[a := None]> h).
Proof. done. Qed.

(** From the end of the page at position [length pre]: the calls return the
    slots of the pages behind it, then null; by then every page from that
    position on is released. *)
Lemma scan_from_page_end post : ∀ pre a pg (h : heap) i,
  pages t = pre ++ a :: post →
  Z.of_nat (length (pages t)) ≤ INT_MAX →
  NoDup (a :: post) →
  (∀ b, b ∈ a :: post → ∃ pg', h !! b = Some (Some pg') ∧ page_wf pg') →
  h !! a = Some (Some pg) → numRecords pg ≤ i ≤ INT_MAX →
  ∃ op',
    pulls next (S (length (stored h post)))
      (h, mkScan i (Z.of_nat (length pre)) (Some a))
    = Ok (stored h post ++ [None], (released (a :: post) h, op'))
    ∧ currentPage op' = None.
Proof.
  induction post as [|a' post IH]; intros pre a pg h i Hpages Hsize Hnd Hlive Ha Hi.
  all: destruct (Hlive a) as (pg0 & Ha0 & [Hfit Hint]); [by left|].
  all: rewrite Ha in Ha0; injection Ha0 as <-.
  all: assert (Hd : deref h a = Ok pg) by (unfold deref; by rewrite Ha).
  all: rewrite Hpages, length_app in Hsize; cbn [length] in Hsize.
  all: assert (Hok : scan_ok (mkScan i (Z.of_nat (length pre)) (Some a)))
         by (unfold scan_ok; cbn; lia).
  - cbn [stored length pulls app].
    rewrite (next_end h _ a pg); try done; cbn; try lia.
    + eexists. split; [reflexivity|done].
    + apply getPage_beyond. rewrite Hpages, length_app. cbn. lia.
  - assert (Hg : getPage t (Z.of_nat (length pre) + 1) = Some a').
    { rewrite getPage_lookup by lia. rewrite Hpages.
      replace (Z.to_nat (Z.of_nat (length pre) + 1)) with (length pre + 1)%nat by lia.
      rewrite lookup_app_r by lia.
      by replace (length pre + 1 - length pre)%nat with 1%nat by lia. }
    apply NoDup_cons in Hnd as [Hnotin Hnd].
    apply not_elem_of_cons in Hnotin as [Hne Hnotin].
    destruct (Hlive a') as (pg' & Ha' & Hwf'); [by right; left|].
    set (h1 := <[a := None]> h).
    assert (Ha1 : h1 !! a' = Some (Some pg'))
      by (subst h1; by rewrite list_lookup_insert_ne).
    destruct (IH (pre ++ [a]) a' pg' h1 (Z.max 0 (numRecords pg')))
      as (op' & Hp & Hcp).
    + by rewrite <- app_assoc.
    + rewrite Hpages, length_app. cbn [length]. lia.
    + done.
    + intros b Hb. destruct (Hlive b) as (pgb & Hb1 & Hb2); [by right|].
      exists pgb. split; [|done]. subst h1. rewrite list_lookup_insert_ne; [done|].
      intros <-. apply elem_of_cons in Hb as [->|Hb]; done.
    + done.
    + destruct Hwf'. lia.
    + exists op'. split; [|done].
      cbn [stored]. rewrite length_app.
      replace (S (length (page_slots h a') + length (stored h post)))
        with (Z.to_nat (numRecords pg' - 0) + S (length (stored h post)))%nat.
      2:{ rewrite (page_slots_live h a' pg' Ha'), length_take.
          destruct Hwf'. lia. }
      assert (Hfirst : ∀ k,
        pulls next (S k) (h, mkScan i (Z.of_nat (length pre)) (Some a))
        = pulls next (S k) (h1, mkScan 0 (Z.of_nat (length pre) + 1) (Some a'))).
      { intros k. cbn [pulls].
        by rewrite (next_advance h _ a pg a') by (try done; cbn; lia). }
      rewrite Nat.add_succ_r, Hfirst, <- Nat.add_succ_r.
      rewrite (scan_within_page h1 a' pg' _ _ 0 _
                 (stored h1 post ++ [None]) (released (a' :: post) h1, op'));
        try done; try lia.
      * rewrite released_cons. fold h1. cbn [drop Z.to_nat].
        subst h1. rewrite page_slots_insert_ne, stored_insert_notin by done.
        by rewrite <- app_assoc.
      * replace (Z.of_nat (length pre) + 1) with (Z.of_nat (length (pre ++ [a])))
          by (rewrite length_app; cbn; lia).
        subst h1. rewrite stored_insert_notin in Hp |- * by done. exact Hp.
Qed.

(** A whole scan from the first slot of the first page. *)
Lemma scan_whole a post (h : heap) :
  pages t = a :: post → store_wf (pages t) h →
  ∃ op',
    pulls next (S (length (stored h (pages t)))) (h, mkScan 0 0 (Some a))
    = Ok (stored h (pages t) ++ [None], (released (pages t) h, op'))
    ∧ currentPage op' = None.
Proof.
  intros Hpages (Hnd & Hsize & Hlive). rewrite Hpages in Hnd, Hlive.
  destruct (Hlive a) as (pg & Ha & Hwf); [by left|].
  destruct (scan_from_page_end post [] a pg h (Z.max 0 (numRecords pg)))
    as (op' & Hp & Hcp); try done.
  { destruct Hwf. lia. }
  exists op'. split; [|done]. rewrite Hpages at 1 2. cbn [stored].
  rewrite length_app.
  replace (S (length (page_slots h a) + length (stored h post)))
    with (Z.to_nat (numRecords pg - 0) + S (length (stored h post)))%nat.
  2:{ rewrite (page_slots_live h a pg Ha), length_take. destruct Hwf. lia. }
  rewrite (scan_within_page h a pg 0 _ 0 _ (stored h post ++ [None])
             (released (a :: post) h, op')); try done; try (unfold INT_MAX; lia).
  by rewrite Hpages, <- app_assoc.
Qed.
End ScanWalk.

Lemma UserInput_scan_whole t a post (h : heap) :
  pages t = a :: post → store_wf (pages t) h →
  ∃ op',
    pulls (UserInput.Next t) (S (length (stored h (pages t)))) (h, mkScan 0 0 (Some a))
    = Ok (stored h (pages t) ++ [None], (released (pages t) h, op'))
    ∧ currentPage op' = None.
Proof.
  apply scan_whole.
  - intros h' op a' pg Hok Hcp Hd Hlt.
    rewrite Next_variants_agree; [|done|by eexists].
    by apply TempCodeRunnerFile_Next_yield.
  - intros h' op a0 pg a' Hok Hcp Hd Hend Hfit Hg Hmax.
    rewrite (Next_variants_agree t h' op); [|done|by eexists].
    rewrite Next_variants_agree; [|..|by eexists].
    + by eapply TempCodeRunnerFile_Next_advance.
    + destruct Hok. unfold scan_ok, INT_MAX in *. cbn. lia.
  - intros h' op a0 pg Hok Hcp Hd Hend Hfit Hg Hmax.
    rewrite Next_variants_agree; [|done|by eexists].
    by eapply TempCodeRunnerFile_Next_end.
Qed.

Lemma TempCodeRunnerFile_scan_whole t a post (h : heap) :
  pages t = a :: post → store_wf (pages t) h →
  ∃ op',
    pulls (TempCodeRunnerFile.Next t) (S (length (stored h (pages t))))
      (h, mkScan 0 0 (Some a))
    = Ok (stored h (pages t) ++ [None], (released (pages t) h, op'))
    ∧ currentPage op' = None.
Proof.
  apply scan_whole.
  - intros h' op a' pg _. apply TempCodeRunnerFile_Next_yield.
  - intros h' op a0 pg a'. by apply TempCodeRunnerFile_Next_advance.
  - intros h' op a0 pg _. by apply TempCodeRunnerFile_Next_end.
Qed.

Lemma UserInput_scan_fresh t (h : heap) :
  store_wf (pages t) h →
  ∃ op', pulls (UserInput.Next t) (S (length (stored h (pages t))))
           (h, TableScanOperator_ctor t)
         = Ok (stored h (pages t) ++ [None], (released (pages t) h, op'))
       ∧ currentPage op' = None.
Proof.
  intros Hwf.
  destruct (ctor_cases t) as [[Hnil Hctor]|(a & rest & Hps & Hctor)]; rewrite Hctor.
  - destruct t as [n ps c]. cbn in Hnil. subst ps. eexists. by split.
  - by eapply UserInput_scan_whole.
Qed.

Lemma TempCodeRunnerFile_scan_fresh t (h : heap) :
  store_wf (pages t) h →
  ∃ op', pulls (TempCodeRunnerFile.Next t) (S (length (stored h (pages t))))
           (h, TableScanOperator_ctor t)
         = Ok (stored h (pages t) ++ [None], (released (pages t) h, op'))
       ∧ currentPage op' = None.
Proof.
  intros Hwf.
  destruct (ctor_cases t) as [[Hnil Hctor]|(a & rest & Hps & Hctor)]; rewrite Hctor.
  - destruct t as [n ps c]. cbn in Hnil. subst ps. eexists. by split.
  - by eapply TempCodeRunnerFile_scan_whole.
Qed.

(** X7.  Over a well-formed page store (the table's pages are distinct
    live cells whose counts fit their allocations), the calls of [Next] on
    a fresh scan return, in both variants, the slots below the count of
    page 0, then those of page 1, and so on in page order, and then null;
    at that point every page of the table has been released and the cursor
    holds no page. *)
Theorem scan_returns_stored_slots t (h : heap) :
  store_wf (pages t) h →
  let slots := stored h (pages t) in
  (∃ op', pulls (UserInput.Next t) (S (length slots)) (h, TableScanOperator_ctor t)
          = Ok (slots ++ [None], (released (pages t) h, op'))
        ∧ currentPage op' = None)
  ∧ (∃ op', pulls (TempCodeRunnerFile.Next t) (S (length slots))
              (h, TableScanOperator_ctor t)
            = Ok (slots ++ [None], (released (pages t) h, op'))
          ∧ currentPage op' = None).
Proof.
  intros Hwf. cbv zeta.
  split; [by apply UserInput_scan_fresh|by apply TempCodeRunnerFile_scan_fresh].
Qed.

Lemma abc_store_wf : store_wf (pages abc_table) abc_store.
Proof.
  split_and!.
  - cbn. apply NoDup_cons. split; [by intros ?%list_elem_of_singleton|].
    apply NoDup_singleton.
  - unfold INT_MAX. cbn. lia.
  - intros a Ha. cbn in Ha.
    apply elem_of_cons in Ha as [->|Ha]; [|apply list_elem_of_singleton in Ha as ->].
    + eexists. split; [reflexivity|]. unfold page_wf, INT_MAX. cbn. lia.
    + eexists. split; [reflexivity|]. unfold page_wf, INT_MAX. cbn. lia.
Qed.

Lemma scan_returns_stored_slots_witness :
  store_wf (pages abc_table) abc_store
  ∧ (∃ op', pulls (UserInput.Next abc_table) 4 (abc_store, TableScanOperator_ctor abc_table)
            = Ok ([Some "A"; Some "B"; Some "C"; None], ([None; None], op'))
          ∧ currentPage op' = None)
  ∧ (∃ op', pulls (TempCodeRunnerFile.Next abc_table) 4
              (abc_store, TableScanOperator_ctor abc_table)
            = Ok ([Some "A"; Some "B"; Some "C"; None], ([None; None], op'))
          ∧ currentPage op' = None).
Proof.
  split; [exact abc_store_wf|].
  exact (scan_returns_stored_slots abc_table abc_store abc_store_wf).
Defined.

(** ** Selecting from a well-formed table *)

Lemma dtor_without_page (h : heap) op :
  currentPage op = None → TableScanOperator_dtor h op = Ok h.
Proof. intros Hcp. unfold TableScanOperator_dtor. by rewrite Hcp. Qed.

Lemma executeSelect_stored fuel nm db t out :
  getTable nm db = Some t →
  store_wf (pages t) (store db) →
  stored (store db) (pages t) = map Some out →
  (length out < fuel)%nat →
  UserInputEngine.executeSelect fuel nm db
    = Ok (mkDatabase (tables db) (released (pages t) (store db))
                     (log db ++ map sink out)).
Proof.
  intros Ht Hwf Hout Hfuel.
  destruct (UserInput_scan_fresh t (store db) Hwf) as (op' & Hp & Hcp).
  rewrite Hout, length_map in Hp.
  unfold UserInputEngine.executeSelect. rewrite Ht.
  rewrite (proj2 (drive_pulls _ fuel _ out _) (conj Hfuel Hp)). cbn.
  by rewrite dtor_without_page.
Qed.

Lemma scanTable_stored fuel t (h : heap) out :
  store_wf (pages t) h →
  stored h (pages t) = map Some out →
  (length out < fuel)%nat →
  TempCodeRunnerFileEngine.scanTable fuel t h = Ok (map sink out, released (pages t) h).
Proof.
  intros Hwf Hout Hfuel.
  destruct (TempCodeRunnerFile_scan_fresh t h Hwf) as (op' & Hp & Hcp).
  rewrite Hout, length_map in Hp.
  unfold TempCodeRunnerFileEngine.scanTable, TempCodeRunnerFileEngine.execute.
  rewrite (proj2 (drive_pulls _ fuel _ out _) (conj Hfuel Hp)). cbn.
  by rewrite dtor_without_page.
Qed.

(** X8.  When every slot below the counts of a well-formed table is
    written, a select prints exactly those records, one "Record: " line
    each, in page order and slot order, and returns with every page of the
    table released; both files do so. *)
Theorem select_prints_stored_records fuel nm db t out :
  getTable nm db = Some t →
  store_wf (pages t) (store db) →
  stored (store db) (pages t) = map Some out →
  (length out < fuel)%nat →
  UserInputEngine.executeSelect fuel nm db
    = Ok (mkDatabase (tables db) (released (pages t) (store db))
                     (log db ++ map sink out))
  ∧ TempCodeRunnerFileEngine.scanTable fuel t (store db)
    = Ok (map sink out, released (pages t) (store db)).
Proof.
  intros Ht Hwf Hout Hfuel.
  split; [by apply executeSelect_stored|by apply scanTable_stored].
Qed.

Lemma select_prints_stored_records_witness :
  getTable "X" abc_db = Some abc_table
  ∧ store_wf (pages abc_table) (store abc_db)
  ∧ stored (store abc_db) (pages abc_table) = map Some ["A"; "B"; "C"]
  ∧ (length ["A"; "B"; "C"] < 4)%nat
  ∧ UserInputEngine.executeSelect 4 "X" abc_db
    = Ok (mkDatabase (tables abc_db) [None; None]
            [cout "Record: A"; cout "Record: B"; cout "Record: C"]).
Proof.
  split_and!; [reflexivity|exact abc_store_wf|reflexivity|cbn; lia|].
  exact (proj1 (select_prints_stored_records 4 "X" abc_db abc_table ["A"; "B"; "C"]
                  eq_refl abc_store_wf eq_refl ltac:(cbn; lia))).
Defined.

(** ** Insertion into a page that has room *)

Lemma store_wf_last_insert pre a pg pg' (h : heap) :
  store_wf (pre ++ [a]) h → h !! a = Some (Some pg) → page_wf pg' →
  store_wf (pre ++ [a]) (<[a := Some pg']> h)
  ∧ stored (<[a := Some pg']> h) (pre ++ [a])
    = stored h pre ++ take (Z.to_nat (numRecords pg')) (records pg').
Proof.
  intros (Hnd & Hsize & Hlive) Ha Hwf'.
  assert (Hlt : (a < length h)%nat) by (by eapply lookup_lt_Some).
  assert (Hnotin : a ∉ pre).
  { apply NoDup_app in Hnd as (_ & Hdisj & _). intros Hin.
    apply (Hdisj a Hin). by left. }
  split.
  - split_and!; [done..|]. intros b Hb.
    destruct (decide (b = a)) as [->|Hne].
    + exists pg'. split; [by apply list_lookup_insert_eq|done].
    + destruct (Hlive b Hb) as (pgb & Hb1 & Hb2). exists pgb.
      split; [by rewrite list_lookup_insert_ne|done].
  - rewrite stored_app, stored_insert_notin by done. cbn [stored].
    rewrite app_nil_r. f_equal. unfold page_slots.
    by rewrite list_lookup_insert_eq.
Qed.

(** X9.  Insert, then select.  On a well-formed table in which every slot
    below the page counts holds a record ([out], in page and slot order)
    and whose last page has a count that is at least 0, below its allocated
    slots, different from the capacity and below [INT_MAX], [insertInto]
    succeeds, keeps the table bound and well-formed, and appends the
    payload up to its first NUL to the stored slots; a select then prints
    [out] followed by that payload. *)
Theorem insertInto_then_select r nm db t pre a pg out fuel :
  getTable nm db = Some t →
  pages t = pre ++ [a] →
  store_wf (pages t) (store db) →
  store db !! a = Some (Some pg) →
  numRecords pg ≠ numRecordsPerPage t →
  0 ≤ numRecords pg < Z.of_nat (length (records pg)) →
  numRecords pg < INT_MAX →
  stored (store db) (pages t) = map Some out →
  (S (length out) < fuel)%nat →
  ∃ db',
    insertInto nm r db = Ok db'
    ∧ getTable nm db' = Some t
    ∧ store_wf (pages t) (store db')
    ∧ stored (store db') (pages t) = map Some (out ++ [strcpy r])
    ∧ UserInputEngine.executeSelect fuel nm db'
      = Ok (mkDatabase (tables db') (released (pages t) (store db'))
              (log db' ++ map sink (out ++ [strcpy r]))).
Proof.
  intros Ht Hpages Hwf Ha Hne Hroom Hmax Hout Hfuel.
  assert (Hlast : last (pages t) = Some a) by (by rewrite Hpages, last_snoc).
  pose proof (addRecord_partial_page r t (store db) a pg Hlast Ha Hne Hroom Hmax) as Hadd.
  set (pg' := mkPage (header pg)
                (<[Z.to_nat (numRecords pg) := Some (strcpy r)]> (records pg))
                (numRecords pg + 1)) in *.
  assert (Hwf' : page_wf pg').
  { unfold page_wf, pg'. cbn. rewrite length_insert. lia. }
  rewrite Hpages in Hwf.
  destruct (store_wf_last_insert pre a pg pg' (store db) Hwf Ha Hwf') as [Hwf2 Hst].
  assert (Hst' : stored (<[a := Some pg']> (store db)) (pages t)
                 = map Some (out ++ [strcpy r])).
  { rewrite Hpages, Hst. unfold pg'. cbn [numRecords records].
    replace (Z.to_nat (numRecords pg + 1)) with (S (Z.to_nat (numRecords pg))) by lia.
    rewrite (take_S_r _ _ (Some (strcpy r)))
      by (apply list_lookup_insert_eq; lia).
    rewrite take_insert_ge by lia.
    rewrite map_app, <- Hout, Hpages, stored_app. cbn [stored map].
    rewrite app_nil_r, (page_slots_live _ a pg Ha). by rewrite app_assoc. }
  eexists. split_and!.
  - unfold insertInto. unfold getTable in Ht. rewrite Ht, Hadd. reflexivity.
  - unfold getTable. cbn [tables]. apply lookup_insert_eq.
  - cbn [store]. by rewrite Hpages.
  - exact Hst'.
  - apply executeSelect_stored.
    + unfold getTable. cbn [tables]. apply lookup_insert_eq.
    + cbn [store]. by rewrite Hpages.
    + exact Hst'.
    + rewrite length_app. cbn. lia.
Qed.

Lemma insertInto_then_select_witness :
  ∃ db',
    insertInto "X" "D" abc_db = Ok db'
    ∧ getTable "X" db' = Some abc_table
    ∧ store_wf (pages abc_table) (store db')
    ∧ stored (store db') (pages abc_table) = map Some (["A"; "B"; "C"] ++ [strcpy "D"])
    ∧ UserInputEngine.executeSelect 5 "X" db'
      = Ok (mkDatabase (tables db') (released (pages abc_table) (store db'))
              (log db' ++ map sink (["A"; "B"; "C"] ++ [strcpy "D"]))).
Proof.
  apply (insertInto_then_select "D" "X" abc_db abc_table [0%nat] 1%nat
           (mkPage None [Some "C"; None] 1) ["A"; "B"; "C"] 5).
  - reflexivity.
  - reflexivity.
  - exact abc_store_wf.
  - reflexivity.
  - cbn. lia.
  - cbn. lia.
  - unfold INT_MAX. cbn. lia.
  - reflexivity.
  - cbn. lia.
Defined.

(** ** [Table::~Table] *)

Lemma released_length ps (h : heap) : length (released ps h) = length h.
Proof.
  revert h. induction ps as [|a ps IH]; intros h; [done|].
  by rewrite released_cons, IH, length_insert.
Qed.

Lemma released_notin ps (h : heap) b : b ∉ ps → released ps h !! b = h !! b.
Proof.
  revert h. induction ps as [|a ps IH]; intros h Hn; [done|].
  apply not_elem_of_cons in Hn as [Hne Hn].
  by rewrite released_cons, IH, list_lookup_insert_ne.
Qed.

Lemma released_in ps (h : heap) b :
  b ∈ ps → (b < length h)%nat → released ps h !! b = Some None.
Proof.
  revert h. induction ps as [|a ps IH]; intros h Hin Hlt; [by apply elem_of_nil in Hin|].
  rewrite released_cons. destruct (decide (b ∈ ps)) as [Hin'|Hn].
  - apply IH; [done|by rewrite length_insert].
  - apply elem_of_cons in Hin as [->|Hin]; [|done].
    rewrite released_notin by done. by apply list_lookup_insert_eq.
Qed.

Lemma delete_pages_Ok ps : ∀ (h h' : heap),
  delete_pages ps h = Ok h' ↔
  (NoDup ps
   ∧ ∀ a, a ∈ ps → ∃ pg, h !! a = Some (Some pg)
                        ∧ numRecords pg ≤ Z.of_nat (length (records pg)))
  ∧ h' = released ps h.
Proof.
  induction ps as [|a ps IH]; intros h h'.
  - cbn. split.
    + intros [= <-]. split; [|done]. split; [constructor|].
      intros a Ha. by apply elem_of_nil in Ha.
    + by intros [_ ->].
  - cbn [delete_pages]. rewrite released_cons. split.
    + intros (h1 & Hdel & Hrest)%bind_Ok_inv.
      apply Page_delete_Ok in Hdel as (-> & Hfreed & _ & pg & Ha & Hfit).
      apply IH in Hrest as [[Hnd Hlive] ->].
      assert (Hnotin : a ∉ ps).
      { intros Hin. destruct (Hlive a Hin) as (pg' & Hpg' & _). congruence. }
      split; [|done]. split; [by constructor|].
      intros b [->|Hb]%elem_of_cons; [by eauto|].
      destruct (Hlive b Hb) as (pgb & Hb1 & Hb2). exists pgb. split; [|done].
      rewrite list_lookup_insert_ne in Hb1; [done|]. by intros ->.
    + intros [[Hnd Hlive] ->]. apply NoDup_cons in Hnd as [Hnotin Hnd].
      destruct (Hlive a) as (pg & Ha & Hfit); [by left|].
      rewrite (Page_delete_live h a pg) by (by unfold deref; rewrite Ha || done).
      cbn. apply IH. split; [|done]. split; [done|].
      intros b Hb. destruct (Hlive b) as (pgb & Hb1 & Hb2); [by right|].
      exists pgb. split; [|done]. rewrite list_lookup_insert_ne; [done|].
      by intros ->.
Qed.

(** X10.  [Table::~Table] completes exactly when the table's pages are
    distinct live cells whose counts fit their allocations; it then
    releases exactly those cells, and every other cell of the page store is
    as before.  A page listed twice, or one already released, makes it
    fault. *)
Theorem Table_dtor_completes_iff t (h h' : heap) :
  (Table_dtor t h = Ok h' ↔
   (NoDup (pages t)
    ∧ ∀ a, a ∈ pages t → ∃ pg, h !! a = Some (Some pg)
                              ∧ numRecords pg ≤ Z.of_nat (length (records pg)))
   ∧ h' = released (pages t) h)
  ∧ (Table_dtor t h = Ok h' →
     length h' = length h
     ∧ (∀ a, a ∈ pages t → h' !! a = Some None)
     ∧ (∀ a, a ∉ pages t → h' !! a = h !! a)).
Proof.
  split; [apply delete_pages_Ok|].
  intros [[Hnd Hlive] ->]%delete_pages_Ok. split_and!.
  - apply released_length.
  - intros a Ha. apply released_in; [done|].
    destruct (Hlive a Ha) as (pg & Hpg & _). by eapply lookup_lt_Some.
  - intros a Ha. by apply released_notin.
Qed.

Lemma Table_dtor_completes_iff_witness :
  Table_dtor abc_table abc_store = Ok (released (pages abc_table) abc_store)
  ∧ length (released (pages abc_table) abc_store) = length abc_store
  ∧ (∀ a, a ∈ pages abc_table → released (pages abc_table) abc_store !! a = Some None)
  ∧ (∀ a, a ∉ pages abc_table → released (pages abc_table) abc_store !! a = abc_store !! a).
Proof.
  assert (E : Table_dtor abc_table abc_store = Ok (released (pages abc_table) abc_store))
    by reflexivity.
  split; [exact E|].
  exact (proj2 (Table_dtor_completes_iff abc_table abc_store _) E).
Defined.

(** ** After a select *)

Section DriveInvariant.
Context {St : Type}.
Variable next : St → result (option string * St).
Variable P : St → Prop.
Hypothesis next_P : ∀ s r s', P s → next s = Ok (r, s') → P s'.

Lemma drive_invariant fuel (s : St) out s' :
  P s → drive next fuel s = Ok (out, s') → P s'.
Proof.
  revert s out. induction fuel as [|fuel IH]; intros s out HP; [done|].
  cbn [drive]. destruct (next s) as [[r s1]| |] eqn:E; cbn; try done.
  apply next_P in E; [|done]. destruct r as [x|].
  - destruct (drive next fuel s1) as [[out1 s2]| |] eqn:E1; cbn; try done.
    intros [= _ <-]. by eapply IH.
  - by intros [= _ <-].
Qed.
End DriveInvariant.

Lemma UserInput_Next_effect t (h : heap) op :
  call_effect h op (UserInput.Next t (h, op)).
Proof. apply UserInput_Next_loop_effect. Qed.

Lemma UserInput_Next_dangling t (h : heap) op a :
  currentPage op = Some a → h !! a = Some None →
  UserInput.Next t (h, op) = Fault UseAfterFree.
Proof.
  intros Hcp Ha. unfold UserInput.Next. cbn [fst snd].
  rewrite UserInput_Next_loop_unfold, Hcp. unfold deref. by rewrite Ha.
Qed.

Lemma delete_pages_fuel ps (h : heap) : delete_pages ps h ≠ NoFuel.
Proof.
  revert h. induction ps as [|a ps IH]; intros h; [done|]. cbn [delete_pages].
  destruct (Page_delete h a) as [h1| |] eqn:E; cbn; [apply IH|done|].
  by apply Page_delete_fuel in E.
Qed.

Lemma delete_pages_only_frees ps (h h' : heap) :
  delete_pages ps h = Ok h' → only_frees h h'.
Proof.
  revert h. induction ps as [|a ps IH]; intros h.
  - intros [= <-]. apply only_frees_refl.
  - cbn [delete_pages]. intros (h1 & Hdel & Hrest)%bind_Ok_inv.
    apply Page_delete_Ok in Hdel as (_ & _ & Hof & _).
    eapply only_frees_trans; [done|by apply IH].
Qed.

(** Once a page of table [t] is released, no order of destroying tables
    that includes [t] completes. *)
Lemma delete_tables_dangling t a rest ts : ∀ (h : heap),
  pages t = a :: rest → h !! a = Some None → t ∈ ts →
  ∃ f, delete_tables ts h = Fault f.
Proof.
  induction ts as [|t1 ts IH]; intros h Hpages Ha Hin; [by apply elem_of_nil in Hin|].
  cbn [delete_tables]. unfold Table_dtor at 1.
  destruct (delete_pages (pages t1) h) as [h1|f|] eqn:E; cbn.
  - apply elem_of_cons in Hin as [<-|Hin].
    + rewrite Hpages in E. cbn [delete_pages] in E.
      by rewrite Page_delete_freed in E.
    + apply IH; [done| |done].
      eapply only_frees_freed; [by eapply delete_pages_only_frees|done].
  - by eexists.
  - by apply delete_pages_fuel in E.
Qed.

(** The first page of the table is released by the time a select returns. *)
Lemma executeSelect_releases_first_page fuel nm db db' t a rest :
  getTable nm db = Some t → pages t = a :: rest →
  UserInputEngine.executeSelect fuel nm db = Ok db' →
  tables db' = tables db ∧ store db' !! a = Some None.
Proof.
  intros Ht Hpages. unfold UserInputEngine.executeSelect. rewrite Ht.
  intros ([out [h1 op1]] & Hdrive & Hrest)%bind_Ok_inv.
  apply bind_Ok_inv in Hrest as (h2 & Hdtor & [= <-]). cbn [tables store].
  split; [done|].
  assert (Hstep : ∀ (s : heap * TableScanOperator) r s',
            (currentPage s.2 = Some a ∨ s.1 !! a = Some None) →
            UserInput.Next t s = Ok (r, s') →
            currentPage s'.2 = Some a ∨ s'.1 !! a = Some None).
  { intros [h op] r [h' op'] HP E. cbn [fst snd] in *.
    pose proof (UserInput_Next_effect t h op) as Heff. rewrite E in Heff.
    destruct Heff as [Hof Hcase]. destruct HP as [Hcp|Hfreed].
    - destruct Hcase as [[-> Hsame]|Hrel]; [left; congruence|right; by apply Hrel].
    - right. by eapply only_frees_freed. }
  assert (HP : currentPage op1 = Some a ∨ h1 !! a = Some None).
  { apply (drive_invariant _ _ Hstep fuel _ out (h1, op1)) in Hdrive; [done|].
    left. destruct (ctor_cases t) as [[Hnil _]|(a' & rest' & Hps & ->)]; [congruence|].
    rewrite Hpages in Hps. by injection Hps as <- _. }
  unfold TableScanOperator_dtor in Hdtor. destruct (currentPage op1) as [b|] eqn:Hcp.
  - apply Page_delete_Ok in Hdtor as (_ & Hfreed & Hof & _).
    destruct HP as [[= <-]|HP]; [done|by eapply only_frees_freed].
  - injection Hdtor as <-. by destruct HP.
Qed.

(** X11.  A select that returns on a table with at least one page leaves
    the catalog pointing at a released page: the table is still bound and
    unchanged, its first page is gone, and so [Table::~Table] faults on it,
    the next select faults, and [Database::~Database] faults in whatever
    order it visits the tables. *)
Theorem select_leaves_dangling_pages fuel nm db db' t a rest :
  getTable nm db = Some t → pages t = a :: rest →
  UserInputEngine.executeSelect fuel nm db = Ok db' →
  getTable nm db' = Some t
  ∧ store db' !! a = Some None
  ∧ Table_dtor t (store db') = Fault UseAfterFree
  ∧ (∀ fuel', UserInputEngine.executeSelect (S fuel') nm db' = Fault UseAfterFree)
  ∧ (∀ ts, t ∈ ts → ∃ f, delete_tables ts (store db') = Fault f).
Proof.
  intros Ht Hpages Hsel.
  destruct (executeSelect_releases_first_page _ _ _ _ _ _ _ Ht Hpages Hsel)
    as [Htables Hfreed].
  assert (Ht' : getTable nm db' = Some t) by (unfold getTable in *; congruence).
  split_and!; [done|done| | |].
  - unfold Table_dtor. rewrite Hpages. cbn [delete_pages].
    by rewrite Page_delete_freed.
  - intros fuel'. unfold UserInputEngine.executeSelect. rewrite Ht'.
    cbn [drive].
    rewrite (UserInput_Next_dangling t _ _ a); [done| |done].
    destruct (ctor_cases t) as [[Hnil _]|(a' & rest' & Hps & ->)]; [congruence|].
    rewrite Hpages in Hps. by injection Hps as <- _.
  - intros ts Hin. by eapply delete_tables_dangling.
Qed.

Lemma select_leaves_dangling_pages_witness :
  ∃ db', UserInputEngine.executeSelect 10 "X" abc_db = Ok db'
       ∧ getTable "X" db' = Some abc_table
       ∧ store db' !! 0%nat = Some None
       ∧ Table_dtor abc_table (store db') = Fault UseAfterFree.
Proof.
  eexists. split; [vm_compute; reflexivity|].
  pose proof (select_leaves_dangling_pages 10 "X" abc_db _ abc_table 0%nat [1%nat]
                eq_refl eq_refl ltac:(vm_compute; reflexivity)) as (H1 & H2 & H3 & _).
  exact (conj H1 (conj H2 H3)).
Defined.

(** ** What a successful insertion can have done *)

Lemma addRecord_Ok_inv r t (h : heap) t' h' :
  addRecord r t h = Ok (t', h') →
  t' = t
  ∧ ∃ a pg,
      last (pages t) = Some a ∧ h !! a = Some (Some pg)
      ∧ numRecords pg ≠ numRecordsPerPage t
      ∧ 0 ≤ numRecords pg < Z.of_nat (length (records pg))
      ∧ h' = <[a := Some (mkPage (header pg)
                            (<[Z.to_nat (numRecords pg) := Some (strcpy r)]> (records pg))
                            (numRecords pg + 1))]> h.
Proof.
  intros E. destruct (last (pages t)) as [a|] eqn:Hlast.
  2:{ rewrite addRecord_new_page in E; [done|left]. by apply last_None. }
  destruct (h !! a) as [[pg|]|] eqn:Ha.
  2,3: unfold addRecord in E; rewrite Hlast in E; unfold deref in E;
       by rewrite Ha in E.
  destruct (Z.eq_dec (numRecords pg) (numRecordsPerPage t)) as [Hfull|Hne].
  { rewrite addRecord_new_page in E; [done|right]. by exists a, pg. }
  assert (Hd : deref h a = Ok pg) by (unfold deref; by rewrite Ha).
  unfold addRecord in E. rewrite Hlast, Hd in E. cbn in E.
  destruct (Z.eqb_spec (numRecords pg) (numRecordsPerPage t)); [done|]. cbn in E.
  unfold back in E. rewrite Hlast in E. cbn in E. rewrite Hd in E. cbn in E.
  apply bind_Ok_inv in E as (n' & Hn' & E). apply int_incr_Ok in Hn' as [-> _].
  apply bind_Ok_inv in E as (slots & Hslots & E). unfold store_slot in Hslots.
  destruct (Z.leb_spec 0 (numRecords pg)); [|done].
  destruct (Z.ltb_spec (numRecords pg) (Z.of_nat (length (records pg)))); [|done].
  injection Hslots as <-. injection E as <- <-.
  split; [done|]. exists a, pg. split_and!; try done; lia.
Qed.

(** X12.  Every [insertInto] that returns leaves the catalog as it was and
    allocates no page.  Under an unbound name it only reports the miss;
    under a bound name it has written the payload (up to its first NUL)
    into slot [count] of the table's last page, which was live, had room
    there and a count other than the capacity, and has added one to that
    count; no other cell of the page store has changed. *)
Theorem insertInto_returns_only_in_place nm r db db' :
  insertInto nm r db = Ok db' →
  tables db' = tables db
  ∧ length (store db') = length (store db)
  ∧ (getTable nm db = None →
     store db' = store db
     ∧ log db' = log db ++ [cerr ("Table not found: " +:+ nm)])
  ∧ (∀ t, getTable nm db = Some t →
     ∃ a pg,
       last (pages t) = Some a ∧ store db !! a = Some (Some pg)
       ∧ numRecords pg ≠ numRecordsPerPage t
       ∧ 0 ≤ numRecords pg < Z.of_nat (length (records pg))
       ∧ store db'
         = <[a := Some (mkPage (header pg)
                          (<[Z.to_nat (numRecords pg) := Some (strcpy r)]> (records pg))
                          (numRecords pg + 1))]> (store db)).
Proof.
  unfold insertInto, getTable. destruct (tables db !! nm) as [t|] eqn:Ht.
  - intros ([t' h'] & Hadd & [= <-])%bind_Ok_inv. cbn [tables store log].
    apply addRecord_Ok_inv in Hadd as (-> & a & pg & Hlast & Ha & Hne & Hroom & ->).
    split_and!.
    + by apply insert_id.
    + apply length_insert.
    + done.
    + intros t0 [= <-]. exists a, pg. split_and!; try done; lia.
  - intros [= <-]. cbn [tables store log]. split_and!; try done.
Qed.

Lemma insertInto_returns_only_in_place_witness :
  ∃ db', insertInto "X" "D" abc_db = Ok db'
       ∧ tables db' = tables abc_db
       ∧ length (store db') = length (store abc_db).
Proof.
  eexists. split; [vm_compute; reflexivity|].
  pose proof (insertInto_returns_only_in_place "X" "D" abc_db _
                ltac:(vm_compute; reflexivity)) as (H1 & H2 & _).
  exact (conj H1 H2).
Defined.

(** ** What a select can have done *)

(** X13.  Every [executeSelect] that returns leaves the catalog as it was
    and writes to no page: each cell of the page store is as before or
    released.  Under an unbound name the store is untouched and the only
    output is "Table not found"; under a bound name the output grows by
    "Record: " lines only. *)
Theorem executeSelect_frame fuel nm db db' :
  UserInputEngine.executeSelect fuel nm db = Ok db' →
  tables db' = tables db
  ∧ only_frees (store db) (store db')
  ∧ (getTable nm db = None →
     store db' = store db
     ∧ log db' = log db ++ [cerr ("Table not found: " +:+ nm)])
  ∧ (is_Some (getTable nm db) → ∃ out, log db' = log db ++ map sink out).
Proof.
  unfold UserInputEngine.executeSelect. destruct (getTable nm db) as [t|] eqn:Ht.
  - intros ([out [h1 op1]] & Hdrive & Hrest)%bind_Ok_inv.
    apply bind_Ok_inv in Hrest as (h2 & Hdtor & [= <-]). cbn [tables store log].
    split_and!; [done| |done|by eauto].
    assert (Hstep : ∀ (s : heap * TableScanOperator) r s',
              only_frees (store db) s.1 → UserInput.Next t s = Ok (r, s') →
              only_frees (store db) s'.1).
    { intros [h op] r [h' op'] HP E. cbn [fst snd] in *.
      pose proof (UserInput_Next_effect t h op) as Heff. rewrite E in Heff.
      destruct Heff as [Hof _]. by eapply only_frees_trans. }
    apply (drive_invariant _ _ Hstep fuel _ out (h1, op1)) in Hdrive;
      [|apply only_frees_refl].
    cbn [fst] in Hdrive. unfold TableScanOperator_dtor in Hdtor.
    destruct (currentPage op1) as [b|].
    + apply Page_delete_Ok in Hdtor as (_ & _ & Hof & _).
      by eapply only_frees_trans.
    + by injection Hdtor as <-.
  - intros [= <-]. cbn [tables store log].
    split_and!; [done|apply only_frees_refl|done|by intros [? ?]].
Qed.

Lemma executeSelect_frame_witness :
  ∃ db', UserInputEngine.executeSelect 10 "X" abc_db = Ok db'
       ∧ tables db' = tables abc_db
       ∧ only_frees (store abc_db) (store db').
Proof.
  eexists. split; [vm_compute; reflexivity|].
  pose proof (executeSelect_frame 10 "X" abc_db _
                ltac:(vm_compute; reflexivity)) as (H1 & H2 & _).
  exact (conj H1 H2).
Defined.

(** ** Records behind a null slot *)

Section PullsPrefix.
Context {St : Type}.
Variable next : St → result (option string * St).

(** Fewer calls return a prefix of what more calls return. *)
Lemma pulls_prefix k j : ∀ (s : St) rs s',
  pulls next (k + j) s = Ok (rs, s') →
  ∃ s1, pulls next k s = Ok (take k rs, s1).
Proof.
  induction k as [|k IH]; intros s rs s' E; [by eexists|].
  cbn [Nat.add pulls] in E |- *.
  destruct (next s) as [[r s1]| |]; cbn in *; try done.
  destruct (pulls next (k + j) s1) as [[rs1 s2]| |] eqn:E1; cbn in *; try done.
  injection E as <- <-. apply IH in E1 as [s3 E3]. rewrite E3. cbn. by eexists.
Qed.
End PullsPrefix.

Lemma drive_until_null t (next : heap * TableScanOperator → _) (h : heap)
    out rest fuel :
  (∃ op', pulls next (S (length (stored h (pages t)))) (h, TableScanOperator_ctor t)
          = Ok (stored h (pages t) ++ [None], (released (pages t) h, op'))
        ∧ currentPage op' = None) →
  stored h (pages t) = map Some out ++ None :: rest →
  (length out < fuel)%nat →
  ∃ s1, drive next fuel (h, TableScanOperator_ctor t) = Ok (out, s1).
Proof.
  intros (op' & Hp & _) Hst Hfuel.
  assert (Hlen : S (length (stored h (pages t)))
                 = (S (length out) + S (length rest))%nat).
  { rewrite Hst, length_app, length_map. cbn. lia. }
  rewrite Hlen in Hp. apply pulls_prefix in Hp as [s1 Hp]. exists s1.
  apply drive_pulls. split; [done|]. rewrite Hp. do 2 f_equal.
  rewrite Hst, <- app_assoc. cbn [app].
  rewrite <- (length_map Some out) at 1.
  replace (S (length (map Some out))) with (length (map Some out) + 1)%nat by lia.
  by rewrite take_app_add'.
Qed.

(** X14.  End-of-stream is in-band, so on a well-formed table a null slot
    below a page's count hides everything behind it: the driver, in both
    variants, hands the sink exactly the records stored before the first
    such slot (in page order) and then returns, whatever the table stores
    after it. *)
Theorem driver_prints_up_to_first_null_slot t (h : heap) out rest fuel :
  store_wf (pages t) h →
  stored h (pages t) = map Some out ++ None :: rest →
  (length out < fuel)%nat →
  (∃ s1, drive (UserInput.Next t) fuel (h, TableScanOperator_ctor t) = Ok (out, s1))
  ∧ (∃ s1, drive (TempCodeRunnerFile.Next t) fuel (h, TableScanOperator_ctor t)
           = Ok (out, s1)).
Proof.
  intros Hwf Hst Hfuel. split.
  - eapply drive_until_null; [by apply UserInput_scan_fresh|done..].
  - eapply drive_until_null; [by apply TempCodeRunnerFile_scan_fresh|done..].
Qed.

Lemma holed_store_wf : store_wf (pages holed_table) holed_store.
Proof.
  split_and!.
  - cbn. apply NoDup_cons. split; [by intros ?%list_elem_of_singleton|].
    apply NoDup_singleton.
  - unfold INT_MAX. cbn. lia.
  - intros a Ha. cbn in Ha. apply elem_of_cons in Ha as [->|Ha].
    + eexists. split; [reflexivity|]. unfold page_wf, INT_MAX. cbn. lia.
    + apply list_elem_of_singleton in Ha. subst a.
      eexists. split; [reflexivity|]. unfold page_wf, INT_MAX. cbn. lia.
Qed.

Lemma driver_prints_up_to_first_null_slot_witness :
  stored holed_store (pages holed_table) = map Some ["A"] ++ None :: [Some "B"; Some "C"]
  ∧ (∃ s1, drive (UserInput.Next holed_table) 2
             (holed_store, TableScanOperator_ctor holed_table) = Ok (["A"], s1))
  ∧ (∃ s1, drive (TempCodeRunnerFile.Next holed_table) 2
             (holed_store, TableScanOperator_ctor holed_table) = Ok (["A"], s1)).
Proof.
  split; [reflexivity|].
  exact (driver_prints_up_to_first_null_slot holed_table holed_store ["A"]
           [Some "B"; Some "C"] 2 holed_store_wf eq_refl ltac:(cbn; lia)).
Defined.

(** ** [Table::addPage] *)

Lemma page_slots_app_l (h : heap) x a :
  (a < length h)%nat → page_slots (h ++ [x]) a = page_slots h a.
Proof. intros Hlt. unfold page_slots. by rewrite lookup_app_l. Qed.

Lemma stored_app_l (h : heap) x ps :
  (∀ a, a ∈ ps → (a < length h)%nat) → stored (h ++ [x]) ps = stored h ps.
Proof.
  induction ps as [|a ps IH]; intros Hlt; [done|]. cbn [stored].
  rewrite page_slots_app_l by (apply Hlt; by left).
  rewrite IH; [done|]. intros b Hb. apply Hlt. by right.
Qed.

(** X15.  [addPage] on a well-formed table with a capacity in
    [0, INT_MAX] appends one page at a fresh address, keeps every existing
    cell and the table well-formed, and, because the new page's count is
    the capacity, extends what a scan returns by [capacity] null slots. *)
Theorem addPage_adds_null_slots t (h : heap) :
  store_wf (pages t) h →
  0 ≤ numRecordsPerPage t ≤ INT_MAX →
  Z.of_nat (length (pages t)) < INT_MAX →
  ∃ t' h',
    addPage t h = Ok (t', h')
    ∧ pages t' = pages t ++ [length h]
    ∧ name t' = name t ∧ numRecordsPerPage t' = numRecordsPerPage t
    ∧ (∀ a, (a < length h)%nat → h' !! a = h !! a)
    ∧ store_wf (pages t') h'
    ∧ stored h' (pages t')
      = stored h (pages t) ++ replicate (Z.to_nat (numRecordsPerPage t)) None.
Proof.
  intros (Hnd & Hsize & Hlive) Hcap Hroom.
  assert (Hlt : ∀ a, a ∈ pages t → (a < length h)%nat).
  { intros a Ha. destruct (Hlive a Ha) as (pg & Hpg & _). by eapply lookup_lt_Some. }
  eexists _, _. split; [apply addPage_Ok; lia|]. cbn [pages name numRecordsPerPage].
  split_and!; try done.
  - intros a Ha. by apply lookup_app_l.
  - split_and!.
    + apply NoDup_app. split_and!; [done| |apply NoDup_singleton].
      intros a Ha Hin. apply list_elem_of_singleton in Hin. subst a.
      apply Hlt in Ha. lia.
    + rewrite length_app. cbn. lia.
    + intros a [Ha|Ha]%elem_of_app.
      * destruct (Hlive a Ha) as (pg & Hpg & Hwf). exists pg. split; [|done].
        rewrite lookup_app_l; [done|by apply Hlt].
      * apply list_elem_of_singleton in Ha. subst a.
        exists (fresh_page (numRecordsPerPage t)).
        split; [apply list_lookup_middle; done|].
        unfold page_wf, fresh_page. cbn. rewrite length_replicate. lia.
  - rewrite stored_app, stored_app_l by done. f_equal. cbn [stored].
    rewrite app_nil_r. unfold page_slots. rewrite list_lookup_middle by done.
    unfold fresh_page. cbn [numRecords records].
    by rewrite take_ge by (rewrite length_replicate; lia).
Qed.

Lemma addPage_adds_null_slots_witness :
  ∃ t' h',
    addPage abc_table abc_store = Ok (t', h')
    ∧ pages t' = pages abc_table ++ [length abc_store]
    ∧ name t' = name abc_table ∧ numRecordsPerPage t' = numRecordsPerPage abc_table
    ∧ (∀ a, (a < length abc_store)%nat → h' !! a = abc_store !! a)
    ∧ store_wf (pages t') h'
    ∧ stored h' (pages t')
      = stored abc_store (pages abc_table)
        ++ replicate (Z.to_nat (numRecordsPerPage abc_table)) None.
Proof.
  apply (addPage_adds_null_slots abc_table abc_store abc_store_wf).
  - unfold INT_MAX. cbn. lia.
  - unfold INT_MAX. cbn. lia.
Defined.

(** ** The driver on a well-formed table *)
















(** ** What [addRecord] leaves in the slot it writes *)

(** X3.  Whenever [addRecord] returns, the table is the one it was given,
    and the last slot below the new count of its last page holds a record
    that is the payload up to its first NUL byte: a payload without NUL is
    stored unchanged, one with a NUL is cut there (so it is not stored byte
    for byte); the stored text is a prefix of the payload and holds no
    NUL. *)
Theorem addRecord_stores_payload_up_to_nul r t (h : heap) t' h' :
  addRecord r t h = Ok (t', h') →
  t' = t
  ∧ ∃ a pg' s,
      last (pages t) = Some a
      ∧ h' !! a = Some (Some pg')
      ∧ load_slot (records pg') (numRecords pg' - 1) = Ok (Some s)
      ∧ (∃ rest, r = s +:+ rest)
      ∧ has_nul s = false
      ∧ (has_nul r = false → s = r)
      ∧ (has_nul r = true → ∃ rest, r = s +:+ String Ascii.zero rest).
Proof.
  intros (-> & a & pg & Hlast & Ha & Hne & Hroom & ->)%addRecord_Ok_inv.
  split; [done|].
  assert (Hlt : (a < length h)%nat) by (by eapply lookup_lt_Some).
  destruct (strcpy_cuts_at_first_nul r) as (Hiff & Hnonul & _ & Hpre & Hcut).
  eexists a, _, (strcpy r). split_and!; try done.
  - by apply list_lookup_insert_eq.
  - cbn [records numRecords]. unfold load_slot. rewrite length_insert.
    replace (numRecords pg + 1 - 1) with (numRecords pg) by lia.
    destruct (Z.leb_spec 0 (numRecords pg)); [|lia].
    destruct (Z.ltb_spec (numRecords pg) (Z.of_nat (length (records pg)))); [|lia].
    cbn [andb]. by rewrite list_lookup_insert_eq by lia.
  - by intros ?%Hiff.
Qed.

Lemma addRecord_stores_payload_up_to_nul_witness :
  ∃ t' h',
    addRecord a_nul_b abc_table abc_store = Ok (t', h')
    ∧ t' = abc_table
    ∧ ∃ a pg' s,
        last (pages abc_table) = Some a
        ∧ h' !! a = Some (Some pg')
        ∧ load_slot (records pg') (numRecords pg' - 1) = Ok (Some s)
        ∧ (∃ rest, a_nul_b = s +:+ rest)
        ∧ has_nul s = false
        ∧ (has_nul a_nul_b = false → s = a_nul_b)
        ∧ (has_nul a_nul_b = true → ∃ rest, a_nul_b = s +:+ String Ascii.zero rest).
Proof.
  eexists _, _. split; [vm_compute; reflexivity|].
  apply (addRecord_stores_payload_up_to_nul a_nul_b abc_table abc_store).
  vm_compute. reflexivity.
Defined.
